(** * Toast notifications: the store and the per-entry timers

    A shallow embedding of [src/components/ui/Toast.tsx].

    The file follows the component from the inside out:
    - the JavaScript values the component inspects (optional properties,
      numbers, truthiness);
    - the notification store kept by [ToastProvider] ([addToast],
      [removeToast] and the four shorthands);
    - the effect of [ToastItem] that arms the auto-expiry timer;
    - the event loop in which timers, clicks and calls interleave;
    - [useToast] and the legacy [toast] function. *)

From Stdlib Require Import ZArith Lia.
From stdpp Require Import base list strings.

(** ** JavaScript values *)

(** An optional property of an object literal.  TypeScript's [f?: T]
    admits three shapes that object spread tells apart: the key is not
    there, the key is there and holds [undefined], the key holds a
    value. *)
Inductive prop (A : Type) : Type :=
| Absent
| Undefined
| Present (a : A).
Arguments Absent {A}.
Arguments Undefined {A}.
Arguments Present {A} a.

(** Reading [o.f]: [None] stands for [undefined]. *)
Definition read {A} (p : prop A) : option A :=
  match p with
  | Present a => Some a
  | Absent | Undefined => None
  end.

(** [{ f: base, ...over }] seen at the key [f]: the spread copies every
    own property of [over], also one that holds [undefined]. *)
Definition spread {A} (base over : prop A) : prop A :=
  match over with
  | Absent => base
  | Undefined | Present _ => over
  end.

(** Numbers.  Durations are written as whole milliseconds; [NaN] and the
    two infinities are kept because truthiness and [!==] treat them
    apart.  Negative zero behaves as [Num 0] in every test below. *)
Inductive number : Type :=
| Num (z : Z)
| NaN
| Infinity (negative : bool).

(** [ToBoolean] on a number that may be [undefined]. *)
Definition truthy_number (v : option number) : bool :=
  match v with
  | None => false
  | Some (Num z) => negb (z =? 0)%Z
  | Some NaN => false
  | Some (Infinity _) => true
  end.

(** [ToBoolean] on a boolean that may be [undefined]. *)
Definition truthy_boolean (v : option bool) : bool :=
  match v with
  | Some b => b
  | None => false
  end.

(** [v !== 0]. *)
Definition strict_ne_zero (v : option number) : bool :=
  match v with
  | Some (Num z) => negb (z =? 0)%Z
  | Some NaN | Some (Infinity _) | None => true
  end.

(** [v || d] with a number default. *)
Definition or_else (v : option number) (d : number) : number :=
  match v with
  | Some n => if truthy_number v then n else d
  | None => d
  end.

(** ** The data model *)

Module ToastType.
Inductive t : Type := success | error | warning | info.
End ToastType.

(** What a caller hands to [addToast].  The parameter type
    [Omit<Toast, 'id'>] names the five keys below and lets other keys
    through: a whole [Toast] is a value of it.  [id] is the argument's
    own [id] key, a string as in [Toast], when it has one. *)
Module ToastData.
Record t : Type := mk {
  id : option string;
  type : ToastType.t;
  title : prop string;
  message : string;
  duration : prop number;
  persistent : prop bool;
}.
End ToastData.

Module Toast.
Record t : Type := mk {
  id : string;
  type : ToastType.t;
  title : prop string;
  message : string;
  duration : prop number;
  persistent : prop bool;
}.
End Toast.

(** ** The store of [ToastProvider] *)

(** The object literal [{ id, duration: 5000, ...toastData }].  The
    spread comes last: an own [id] key of [toastData] replaces the
    generated [id], and the key [duration] replaces the 5000. *)
Definition newToast (id : string) (toastData : ToastData.t) : Toast.t :=
  {| Toast.id := match ToastData.id toastData with
                 | Some own => own
                 | None => id
                 end;
     Toast.type := ToastData.type toastData;
     Toast.title := spread Absent (ToastData.title toastData);
     Toast.message := ToastData.message toastData;
     Toast.duration := spread (Present (Num 5000)) (ToastData.duration toastData);
     Toast.persistent := spread Absent (ToastData.persistent toastData) |}.

(** [addToast].  The argument [id] is the string that
    [Math.random().toString(36).substr(2, 9)] produced in this call: the
    generator is the environment's, so its result is an input here.  The
    state updater is [prev => [toast, ...prev]]. *)
Definition addToast (id : string) (toastData : ToastData.t)
    (prev : list Toast.t) : list Toast.t :=
  newToast id toastData :: prev.

(** [removeToast]: [prev => prev.filter(toast => toast.id !== id)]. *)
Definition removeToast (id : string) (prev : list Toast.t) : list Toast.t :=
  filter (λ toast, Toast.id toast ≠ id) prev.

(** The shorthands pass [type], [message] and [title], and no [id];
    [title] is a key of the literal even when the caller left it out. *)
Definition shorthand (ty : ToastType.t) (message : string)
    (title : option string) : ToastData.t :=
  {| ToastData.id := None;
     ToastData.type := ty;
     ToastData.title := match title with Some s => Present s | None => Undefined end;
     ToastData.message := message;
     ToastData.duration := Absent;
     ToastData.persistent := Absent |}.

Definition success (id message : string) (title : option string) :=
  addToast id (shorthand ToastType.success message title).
Definition error (id message : string) (title : option string) :=
  addToast id (shorthand ToastType.error message title).
Definition warning (id message : string) (title : option string) :=
  addToast id (shorthand ToastType.warning message title).
Definition info (id message : string) (title : option string) :=
  addToast id (shorthand ToastType.info message title).

(** The ids of the active collection, front first. *)
Definition ids (toasts : list Toast.t) : list string :=
  Toast.id <$> toasts.

(** *** Sequences of store calls *)

Inductive Call : Type :=
| CallAdd (id : string) (toastData : ToastData.t)
| CallRemove (id : string).

Definition applyCall (prev : list Toast.t) (c : Call) : list Toast.t :=
  match c with
  | CallAdd id toastData => addToast id toastData prev
  | CallRemove id => removeToast id prev
  end.

(** React applies queued updaters in call order. *)
Definition runCalls (calls : list Call) (start : list Toast.t) : list Toast.t :=
  foldl applyCall start calls.

(** Number of [addToast] calls. *)
Fixpoint countAdds (calls : list Call) : nat :=
  match calls with
  | [] => 0
  | CallAdd _ _ :: rest => S (countAdds rest)
  | CallRemove _ :: rest => countAdds rest
  end.

(** Number of completed removals: [removeToast] calls that found their id
    in the collection and so changed it. *)
Fixpoint completedRemovals (calls : list Call) (store : list Toast.t) : nat :=
  match calls with
  | [] => 0
  | c :: rest =>
      (match c with
       | CallRemove id => if bool_decide (id ∈ ids store) then 1 else 0
       | CallAdd _ _ => 0
       end + completedRemovals rest (applyCall store c))
  end.

(** The entries handed to [addToast], oldest first. *)
Fixpoint addedToasts (calls : list Call) : list Toast.t :=
  match calls with
  | [] => []
  | CallAdd id toastData :: rest => newToast id toastData :: addedToasts rest
  | CallRemove _ :: rest => addedToasts rest
  end.

(** The id every new entry gets, the generated one or the argument's
    own, differs from the ids active at that time. *)
Fixpoint freshIds (calls : list Call) (store : list Toast.t) : bool :=
  match calls with
  | [] => true
  | c :: rest =>
      match c with
      | CallAdd id toastData =>
          bool_decide (Toast.id (newToast id toastData) ∉ ids store)
      | CallRemove _ => true
      end && freshIds rest (applyCall store c)
  end.

(** ** [ToastItem] *)

(** The guard and the delay of the expiry effect:
    [if (!toast.persistent && toast.duration !== 0)
       setTimeout(..., toast.duration || 5000)].
    [None] when the guard fails and no timer is armed, otherwise the
    delay argument handed to [setTimeout]. *)
Definition expiryDelay (toast : Toast.t) : option number :=
  if negb (truthy_boolean (read (Toast.persistent toast)))
     && strict_ne_zero (read (Toast.duration toast))
  then Some (or_else (read (Toast.duration toast)) (Num 5000))
  else None.

(** What the browser makes of a [setTimeout] delay: the argument is
    converted to a signed 32-bit integer and a negative result counts as
    zero. *)
Definition toInt32 (z : Z) : Z :=
  let m := (z mod 2 ^ 32)%Z in
  if (2 ^ 31 <=? m)%Z then (m - 2 ^ 32)%Z else m.

Definition timeoutDelay (n : number) : Z :=
  match n with
  | Num z => Z.max 0 (toInt32 z)
  | NaN | Infinity _ => 0%Z
  end.

(** ** The event loop *)

(** The three closures the component hands to [setTimeout].  [key] names
    the mounted [ToastItem] that created the timer; [id] is the
    [toast.id] the closure captured. *)
Inductive Callback : Type :=
| SetVisible (key : nat)
| HandleRemove (key : nat) (id : string)
| OnRemove (key : nat) (id : string).

Record Timer : Type := mkTimer {
  due : Z;
  callback : Callback;
}.

(** A mounted [ToastItem]: its [toast] prop and its two pieces of local
    state.  [key] numbers the mounts. *)
Module ToastItem.
Record t : Type := mk {
  key : nat;
  toast : Toast.t;
  isVisible : bool;
  isLeaving : bool;
}.
End ToastItem.

Record World : Type := mkWorld {
  now : Z;
  toasts : list Toast.t;
  items : list ToastItem.t;
  timers : list Timer;
  mounted : nat;
}.

Definition initial : World :=
  {| now := 0; toasts := []; items := []; timers := []; mounted := 0 |}.

(** The timers both effects arm when an item mounts: the entrance tick
    after 10 ms, and the expiry timer when the guard lets it through. *)
Definition mountTimers (t : Z) (k : nat) (toast : Toast.t) : list Timer :=
  mkTimer (t + 10) (SetVisible k)
  :: match expiryDelay toast with
     | Some d => [mkTimer (t + timeoutDelay d) (HandleRemove k (Toast.id toast))]
     | None => []
     end.

(** The effect clean-ups of an unmounted item clear its entrance and
    expiry timers; the timer started inside [handleRemove] has no
    clean-up and stays. *)
Definition survives (live : list nat) (tm : Timer) : bool :=
  match callback tm with
  | SetVisible k | HandleRemove k _ => bool_decide (k ∈ live)
  | OnRemove _ _ => true
  end.

Definition setVisible (k : nat) (it : ToastItem.t) : ToastItem.t :=
  if bool_decide (ToastItem.key it = k)
  then {| ToastItem.key := ToastItem.key it; ToastItem.toast := ToastItem.toast it;
          ToastItem.isVisible := true; ToastItem.isLeaving := ToastItem.isLeaving it |}
  else it.

Definition setLeaving (k : nat) (it : ToastItem.t) : ToastItem.t :=
  if bool_decide (ToastItem.key it = k)
  then {| ToastItem.key := ToastItem.key it; ToastItem.toast := ToastItem.toast it;
          ToastItem.isVisible := ToastItem.isVisible it; ToastItem.isLeaving := true |}
  else it.

(** A call of [addToast] followed by the render that mounts the new
    item.  The container keys its children by [toast.id]; this is the
    render for a new entry whose id is on no child yet.  With a
    duplicate key React gives no such guarantee, and the statements
    about items and timers below that need it ask for pairwise distinct
    entry ids. *)
Definition doAdd (id : string) (toastData : ToastData.t) (w : World) : World :=
  let k := mounted w in
  {| now := now w;
     toasts := addToast id toastData (toasts w);
     items := ToastItem.mk k (newToast id toastData) false false :: items w;
     timers := timers w ++ mountTimers (now w) k (newToast id toastData);
     mounted := S k |}.

(** A call of [removeToast] followed by the render that unmounts the
    items whose entry is gone, each under its own key: the render when
    the ids on screen are pairwise distinct. *)
Definition doRemove (id : string) (w : World) : World :=
  let items' := filter (λ it, Toast.id (ToastItem.toast it) ≠ id) (items w) in
  {| now := now w;
     toasts := removeToast id (toasts w);
     items := items';
     timers := filter (λ tm, survives (ToastItem.key <$> items') tm = true) (timers w);
     mounted := mounted w |}.

(** [handleRemove]: [setIsLeaving(true)] and
    [setTimeout(() => onRemove(toast.id), 300)]. *)
Definition handleRemove (k : nat) (id : string) (w : World) : World :=
  {| now := now w;
     toasts := toasts w;
     items := setLeaving k <$> items w;
     timers := timers w ++ [mkTimer (now w + 300) (OnRemove k id)];
     mounted := mounted w |}.

Definition runCallback (cb : Callback) (w : World) : World :=
  match cb with
  | SetVisible k =>
      {| now := now w; toasts := toasts w; items := setVisible k <$> items w;
         timers := timers w; mounted := mounted w |}
  | HandleRemove k id => handleRemove k id w
  | OnRemove _ id => doRemove id w
  end.

(** The fired timer leaves the pending list before its callback runs. *)
Definition dequeue (n : nat) (w : World) : World :=
  {| now := now w; toasts := toasts w; items := items w;
     timers := delete n (timers w); mounted := mounted w |}.

Definition advance (dt : Z) (w : World) : World :=
  {| now := now w + dt; toasts := toasts w; items := items w;
     timers := timers w; mounted := mounted w |}.

Inductive Event : Type :=
| AddToast (id : string) (toastData : ToastData.t)
| RemoveToast (id : string)
| Click (key : nat)
| Fire (n : nat)
| Elapse (dt : Z).

Definition findItem (k : nat) (its : list ToastItem.t) : option ToastItem.t :=
  head (filter (λ it, ToastItem.key it = k) its).

(** One turn of the loop.  [None] when the event cannot happen: a click
    on an item that is not on screen, a timer that is not pending or not
    yet due, time running backwards. *)
Definition step (w : World) (e : Event) : option World :=
  match e with
  | AddToast id toastData => Some (doAdd id toastData w)
  | RemoveToast id => Some (doRemove id w)
  | Click k =>
      match findItem k (items w) with
      | Some it => Some (handleRemove k (Toast.id (ToastItem.toast it)) w)
      | None => None
      end
  | Fire n =>
      match timers w !! n with
      | Some tm =>
          if (due tm <=? now w)%Z
          then Some (runCallback (callback tm) (dequeue n w))
          else None
      | None => None
      end
  | Elapse dt =>
      if (0 <=? dt)%Z then Some (advance dt w) else None
  end.

Fixpoint run (w : World) (evs : list Event) : option World :=
  match evs with
  | [] => Some w
  | e :: rest =>
      match step w e with
      | Some w' => run w' rest
      | None => None
      end
  end.

(** The ids of the entries added along a run, oldest first. *)
Fixpoint entryIds (evs : list Event) : list string :=
  match evs with
  | [] => []
  | AddToast id toastData :: rest =>
      Toast.id (newToast id toastData) :: entryIds rest
  | _ :: rest => entryIds rest
  end.

(** Number of [addToast] calls in a run: the key of the next item. *)
Fixpoint countMounts (evs : list Event) : nat :=
  match evs with
  | [] => 0
  | AddToast _ _ :: rest => S (countMounts rest)
  | _ :: rest => countMounts rest
  end.

(** No click on item [k] and no [removeToast] of [id] along the run. *)
Definition handsOff (k : nat) (id : string) (e : Event) : bool :=
  match e with
  | Click k' => bool_decide (k' ≠ k)
  | RemoveToast id' => bool_decide (id' ≠ id)
  | AddToast _ _ | Fire _ | Elapse _ => true
  end.

(** *** Bookkeeping for the proofs about runs *)

(** The id a pending timer will act on; the entrance tick has none. *)
Definition timerId (tm : Timer) : option string :=
  match callback tm with
  | SetVisible _ => None
  | HandleRemove _ id | OnRemove _ id => Some id
  end.

(** Pending timers that will act on [id]. *)
Definition pending (id : string) (tms : list Timer) : nat :=
  length (filter (λ tm, timerId tm = Some id) tms).

(** Active entries that carry [id]. *)
Definition copies (id : string) (ts : list Toast.t) : nat :=
  length (filter (λ t, Toast.id t = id) ts).

(** Every id the world mentions is the id of an entry added before. *)
Definition known (used : list string) (w : World) : Prop :=
  (∀ t, t ∈ toasts w → Toast.id t ∈ used)
  ∧ (∀ it, it ∈ items w → Toast.id (ToastItem.toast it) ∈ used)
  ∧ (∀ tm id, tm ∈ timers w → timerId tm = Some id → id ∈ used).

(** Item [k] is the only mounted item whose entry carries [id]. *)
Definition owned (k : nat) (id : string) (its : list ToastItem.t) : Prop :=
  ∀ it, it ∈ its → Toast.id (ToastItem.toast it) = id → ToastItem.key it = k.

(** A turn that neither dismisses item [k] by hand, nor calls
    [removeToast] with [id], nor entryIds [id] again. *)
Definition quiet (k : nat) (id : string) (e : Event) : Prop :=
  handsOff k id e = true ∧ id ∉ entryIds [e].

(** What one turn from [w] to [w'] did to the entries that carry [id]:
    it kept them, *)
Definition kept (id : string) (w w' : World) : Prop :=
  copies id (toasts w') = copies id (toasts w)
  ∧ ∀ t, Toast.id t = id → t ∈ toasts w → t ∈ toasts w'.

(** or it was the removal request of an item, its exit hold over. *)
Definition requested (id : string) (w : World) (e : Event) : Prop :=
  ∃ n tm k, e = Fire n ∧ timers w !! n = Some tm ∧ callback tm = OnRemove k id.

(** A timer about [id] that is pending after the turn was pending
    before, or it is the exit hold that an expiry timer about [id]
    started when it fired in this turn. *)
Definition inherited (id : string) (w w' : World) : Prop :=
  ∀ tm', tm' ∈ timers w' → timerId tm' = Some id →
    tm' ∈ timers w
    ∨ ∃ tm k k', tm ∈ timers w ∧ callback tm = HandleRemove k id
                 ∧ (due tm ≤ now w)%Z
                 ∧ callback tm' = OnRemove k' id
                 ∧ due tm' = (now w + 300)%Z.

(** ** [useToast] and the legacy [toast] *)

Module ToastContextType.
Record t : Type := mk {
  addToast : string → ToastData.t → list Toast.t → list Toast.t;
  removeToast : string → list Toast.t → list Toast.t;
  success : string → string → option string → list Toast.t → list Toast.t;
  error : string → string → option string → list Toast.t → list Toast.t;
  warning : string → string → option string → list Toast.t → list Toast.t;
  info : string → string → option string → list Toast.t → list Toast.t;
}.
End ToastContextType.

(** The value [ToastProvider] hands to [ToastContext.Provider]. *)
Definition contextValue : ToastContextType.t :=
  {| ToastContextType.addToast := addToast;
     ToastContextType.removeToast := removeToast;
     ToastContextType.success := success;
     ToastContextType.error := error;
     ToastContextType.warning := warning;
     ToastContextType.info := info |}.

(** [createContext<ToastContextType | undefined>(undefined)]. *)
Definition ToastContext : option ToastContextType.t := None.

(** [useContext(ToastContext)]: the value of the nearest enclosing
    provider, the context's default when there is none.  [providers]
    lists the values of the enclosing providers, innermost first. *)
Definition useContext (providers : list (option ToastContextType.t))
    : option ToastContextType.t :=
  match providers with
  | value :: _ => value
  | [] => ToastContext
  end.

(** The outcome of a call that may throw. *)
Inductive outcome (A : Type) : Type :=
| Return (a : A)
| Throw (message : string).
Arguments Return {A} a.
Arguments Throw {A} message.

Definition useToast (providers : list (option ToastContextType.t))
    : outcome ToastContextType.t :=
  match useContext providers with
  | None => Throw "useToast must be used within a ToastProvider"
  | Some context => Return context
  end.

(** The page as the legacy function can touch it: the event loop of the
    provider and the console. *)
Record Page : Type := mkPage {
  world : World;
  console : list string;
}.

(** [toast(message, type = 'info')]: one [console.warn], nothing else. *)
Definition toast (message : string) (type : option ToastType.t) (p : Page) : Page :=
  let type := default ToastType.info type in
  {| world := world p;
     console := console p ++ ["Legacy toast function called. Please use useToast hook instead."] |}.

(** ** Sample notifications *)

Definition plain (message : string) : ToastData.t :=
  shorthand ToastType.info message None.

Definition sticky (message : string) : ToastData.t :=
  {| ToastData.id := None;
     ToastData.type := ToastType.info; ToastData.title := Absent;
     ToastData.message := message; ToastData.duration := Absent;
     ToastData.persistent := Present true |}.

(** An argument that brings its own [id] key. *)
Definition carrying (own message : string) : ToastData.t :=
  {| ToastData.id := Some own;
     ToastData.type := ToastType.info; ToastData.title := Absent;
     ToastData.message := message; ToastData.duration := Absent;
     ToastData.persistent := Absent |}.

Definition timed (message : string) (d : prop number) (p : prop bool) : ToastData.t :=
  {| ToastData.id := None;
     ToastData.type := ToastType.info; ToastData.title := Absent;
     ToastData.message := message; ToastData.duration := d;
     ToastData.persistent := p |}.

(** Two draws of the generator that give the same id, then its removal.
    ["i"] is what [toString(36).substr(2, 9)] makes of the draw [0.5]. *)
Definition collidingCalls : list Call :=
  [CallAdd "i" (plain "first"); CallAdd "i" (plain "second"); CallRemove "i"].

Definition distinctCalls : list Call :=
  [CallAdd "i" (plain "first"); CallAdd "j" (plain "second");
   CallRemove "i"; CallRemove "zz"].

(** A persistent entry, then a default one that drew the same id; the
    second one's expiry timer fires after 5000 ms and its exit hold
    after 300 ms more. *)
Definition twinOfSticky : list Event :=
  [AddToast "i" (plain "second"); Elapse 5000; Fire 2; Elapse 300; Fire 2].

(** After a default entry: a second default entry that entryIds the same
    id, up to the moment the exit hold of the first one is over. *)
Definition twinOfDefault : list Event :=
  [AddToast "i" (plain "second"); Elapse 5000; Fire 1; Elapse 300].

(** After a default entry: the user closes it at once; up to the moment
    its exit hold is over. *)
Definition closedAtOnce : list Event :=
  [Click 0; Elapse 300].

(** An older entry, and what happens around a default entry added after
    it until the exit hold of that entry is over. *)
Definition olderFirst : list Event :=
  [AddToast "j" (plain "other")].

Definition expiryWait : list Event :=
  [Elapse 5000; Fire 3; Elapse 300].

(** A default entry that comes and goes beside an entry added before it,
    and a long wait. *)
Definition besideRun : list Event :=
  [AddToast "i" (plain "other"); Elapse 5000; Fire 2; Elapse 300; Fire 2;
   Elapse 100000].

(** Two entries from the start, the second one left alone until its exit
    hold is pending. *)
Definition waitingRun : list Event :=
  olderFirst ++ AddToast "i" (plain "first") :: expiryWait.

(** An entry the user closes with two clicks; the first exit hold has
    fired, the second one is still pending. *)
Definition doubleClick : list Event :=
  [AddToast "i" (plain "first"); Click 0; Click 0; Elapse 300; Fire 2].

(** An entry the user closes at once. *)
Definition clickedRun : list Event :=
  [AddToast "i" (plain "first"); Click 0].

(** Ten milliseconds and the entrance tick of the first item, of the
    second item. *)
Definition tickFirst : list Event := [Elapse 10; Fire 0].

Definition tickSecond : list Event := [Elapse 10; Fire 2].

(** The key of an item is the position of its entry's id among the ids
    of the entries added so far, and the timers of an item captured
    that id. *)
Definition drawn (ds : list string) (w : World) : Prop :=
  mounted w = length ds
  ∧ (∀ it, it ∈ items w →
       ds !! ToastItem.key it = Some (Toast.id (ToastItem.toast it)))
  ∧ (∀ tm k id, tm ∈ timers w →
       callback tm = HandleRemove k id ∨ callback tm = OnRemove k id →
       ds !! k = Some id).

(** A turn that is not a call of [removeToast] with [id]. *)
Definition notRemoved (id : string) (e : Event) : bool :=
  match e with
  | RemoveToast id' => bool_decide (id' ≠ id)
  | AddToast _ _ | Click _ | Fire _ | Elapse _ => true
  end.

(** A click on the only item, and almost the whole exit hold. *)
Definition almostGone : list Event := [Click 0; Elapse 299].

(** ** Rendering *)

(** The four icons of [lucide-react] the component imports. *)
Module Icon.
Inductive t : Type := CheckCircle | AlertCircle | AlertTriangle | Info.
End Icon.

Record IconElement : Type := mkIcon {
  icon : Icon.t;
  className : string;
}.

(** A [ToastType] is a string at run time. *)
Definition typeName (type : ToastType.t) : string :=
  match type with
  | ToastType.success => "success"
  | ToastType.error => "error"
  | ToastType.warning => "warning"
  | ToastType.info => "info"
  end.

(** [ToastIcon]: the [switch] on [type] with its [default] branch.  In
    each branch the [className] written after [{...iconProps}] replaces
    the one of [iconProps]. *)
Definition ToastIcon (type : string) : IconElement :=
  if String.eqb type "success"
  then mkIcon Icon.CheckCircle "h-5 w-5 flex-shrink-0 text-green-600"
  else if String.eqb type "error"
  then mkIcon Icon.AlertCircle "h-5 w-5 flex-shrink-0 text-red-600"
  else if String.eqb type "warning"
  then mkIcon Icon.AlertTriangle "h-5 w-5 flex-shrink-0 text-amber-600"
  else if String.eqb type "info"
  then mkIcon Icon.Info "h-5 w-5 flex-shrink-0 text-blue-600"
  else mkIcon Icon.Info "h-5 w-5 flex-shrink-0 text-gray-600".

(** [getToastStyles] of [ToastItem], in its three parts. *)
Definition baseStyles : string :=
  "relative flex items-start p-4 rounded-xl shadow-lg border backdrop-blur-sm transition-all duration-300 ease-in-out transform".

Definition typeStyles (type : ToastType.t) : string :=
  match type with
  | ToastType.success => "bg-white/95 border-green-200 text-green-900"
  | ToastType.error => "bg-white/95 border-red-200 text-red-900"
  | ToastType.warning => "bg-white/95 border-amber-200 text-amber-900"
  | ToastType.info => "bg-white/95 border-blue-200 text-blue-900"
  end.

Definition animationStyles (isVisible isLeaving : bool) : string :=
  if isLeaving then "opacity-0 scale-95 translate-y-[-10px]"
  else if isVisible then "opacity-100 scale-100 translate-y-0"
  else "opacity-0 scale-95 translate-y-[-10px]".

Definition getToastStyles (it : ToastItem.t) : string :=
  baseStyles +:+ " " +:+ typeStyles (Toast.type (ToastItem.toast it)) +:+ " "
  +:+ animationStyles (ToastItem.isVisible it) (ToastItem.isLeaving it).

(** The item is drawn in its opaque, full-size style. *)
Definition shown (it : ToastItem.t) : bool :=
  ToastItem.isVisible it && negb (ToastItem.isLeaving it).

(** [ToastContainer]: [null] for the empty collection, otherwise one
    wrapper [<div key={toast.id}>] with its [ToastItem] per entry. *)
Record Slot : Type := mkSlot {
  slotKey : string;
  slotToast : Toast.t;
}.

Definition ToastContainer (toasts : list Toast.t) : option (list Slot) :=
  if Nat.eqb (length toasts) 0 then None
  else Some ((λ toast, mkSlot (Toast.id toast) toast) <$> toasts).

(** *** More bookkeeping for runs *)

(** Entries a sequence of calls took out of the store. *)
Fixpoint removedEntries (calls : list Call) (store : list Toast.t) : nat :=
  match calls with
  | [] => 0
  | c :: rest =>
      (match c with
       | CallRemove id => copies id store
       | CallAdd _ _ => 0
       end + removedEntries rest (applyCall store c))
  end.

Definition keys (its : list ToastItem.t) : list nat :=
  ToastItem.key <$> its.

(** The item whose effect clean-up clears the timer; the exit hold has
    none. *)
Definition timerOwner (tm : Timer) : option nat :=
  match callback tm with
  | SetVisible k | HandleRemove k _ => Some k
  | OnRemove _ _ => None
  end.

Definition isExpiryOf (k : nat) (tm : Timer) : bool :=
  match callback tm with
  | HandleRemove k' _ => bool_decide (k' = k)
  | SetVisible _ | OnRemove _ _ => false
  end.

(** What holds of the worlds a run can reach: the mounted items are the
    active entries, one item each, with keys handed out before; a
    pending entrance or expiry timer belongs to a mounted item; an
    expiry timer captured the id of its item's entry; an item has at
    most one expiry timer; an exit hold was started by an item that has
    been leaving since. *)
Definition consistent (w : World) : Prop :=
  ToastItem.toast <$> items w = toasts w
  ∧ NoDup (keys (items w))
  ∧ (∀ k, k ∈ keys (items w) → k < mounted w)
  ∧ (∀ tm k, tm ∈ timers w → timerOwner tm = Some k → k ∈ keys (items w))
  ∧ (∀ tm k id, tm ∈ timers w → callback tm = HandleRemove k id →
       ∃ it, it ∈ items w ∧ ToastItem.key it = k
             ∧ Toast.id (ToastItem.toast it) = id)
  ∧ (∀ k, length (filter (λ tm, isExpiryOf k tm = true) (timers w)) ≤ 1)
  ∧ (∀ tm k id, tm ∈ timers w → callback tm = OnRemove k id →
       k < mounted w
       ∧ ∀ it, it ∈ items w → ToastItem.key it = k → ToastItem.isLeaving it = true).

(** ** The store: lemmas *)

Section Store.
Implicit Types (id : string) (toastData : ToastData.t).
Implicit Types (prev store : list Toast.t) (calls : list Call).

Lemma ids_cons (t : Toast.t) prev : ids (t :: prev) = Toast.id t :: ids prev.
Proof. reflexivity. Qed.

Lemma removeToast_sublist id prev : removeToast id prev `sublist_of` prev.
Proof. apply sublist_filter. Qed.

Lemma elem_of_removeToast id prev (t : Toast.t) :
  t ∈ removeToast id prev ↔ t ∈ prev ∧ Toast.id t ≠ id.
Proof. unfold removeToast. rewrite list_elem_of_filter. tauto. Qed.

Lemma removeToast_absent id prev : id ∉ ids prev → removeToast id prev = prev.
Proof.
  intros Hid. unfold removeToast.
  induction prev as [|t prev IH]; [reflexivity|].
  rewrite ids_cons, not_elem_of_cons in Hid. destruct Hid as [Hne Hrest].
  rewrite filter_cons_True by congruence. f_equal. auto.
Qed.

Lemma removeToast_gone id prev : id ∉ ids (removeToast id prev).
Proof.
  unfold ids. rewrite list_elem_of_fmap. intros (t & -> & Ht).
  apply elem_of_removeToast in Ht. tauto.
Qed.

Lemma ids_removeToast_sublist id prev :
  ids (removeToast id prev) `sublist_of` ids prev.
Proof. unfold ids. apply fmap_sublist, removeToast_sublist. Qed.

Lemma removeToast_NoDup id prev : NoDup (ids prev) → NoDup (ids (removeToast id prev)).
Proof. intros Hnd. exact (sublist_NoDup _ _ Hnd (ids_removeToast_sublist id prev)). Qed.

(** With pairwise distinct ids a removal that hits drops one entry. *)
Lemma removeToast_length_present id prev :
  NoDup (ids prev) → id ∈ ids prev →
  S (length (removeToast id prev)) = length prev.
Proof.
  induction prev as [|t prev IH]; intros Hnd Hin.
  - inversion Hin.
  - rewrite ids_cons in *. apply NoDup_cons in Hnd as [Hnotin Hnd].
    unfold removeToast in *.
    destruct (decide (Toast.id t = id)) as [Heq|Hne].
    + rewrite filter_cons_False by tauto.
      fold (removeToast id prev). rewrite removeToast_absent by congruence.
      reflexivity.
    + rewrite filter_cons_True by assumption. simpl. f_equal.
      apply IH; [assumption|]. apply elem_of_cons in Hin as [Heq|Hin]; congruence.
Qed.

Lemma runCalls_cons c calls store :
  runCalls (c :: calls) store = runCalls calls (applyCall store c).
Proof. reflexivity. Qed.

Lemma applyCall_NoDup c store :
  NoDup (ids store) →
  match c with
  | CallAdd id toastData => Toast.id (newToast id toastData) ∉ ids store
  | CallRemove _ => True
  end →
  NoDup (ids (applyCall store c)).
Proof.
  destruct c as [id toastData|id]; unfold applyCall; intros Hnd Hfresh.
  - unfold addToast. rewrite ids_cons. apply NoDup_cons. auto.
  - apply removeToast_NoDup, Hnd.
Qed.

Lemma freshIds_cons c calls store :
  freshIds (c :: calls) store = true →
  match c with
  | CallAdd id toastData => Toast.id (newToast id toastData) ∉ ids store
  | CallRemove _ => True
  end
  ∧ freshIds calls (applyCall store c) = true.
Proof.
  simpl. intros H. apply andb_true_iff in H as [H1 H2]. split; [|assumption].
  destruct c; [|exact I]. apply bool_decide_eq_true in H1. assumption.
Qed.

Lemma runCalls_NoDup calls : ∀ store,
  NoDup (ids store) → freshIds calls store = true →
  NoDup (ids (runCalls calls store)).
Proof.
  induction calls as [|c calls IH]; intros store Hnd Hfresh; [assumption|].
  apply freshIds_cons in Hfresh as [Hc Hrest].
  rewrite runCalls_cons. apply IH; [|assumption].
  apply applyCall_NoDup; assumption.
Qed.

Lemma runCalls_length calls : ∀ store,
  NoDup (ids store) → freshIds calls store = true →
  length (runCalls calls store) + completedRemovals calls store
  = length store + countAdds calls.
Proof.
  induction calls as [|c calls IH]; intros store Hnd Hfresh; [simpl; lia|].
  apply freshIds_cons in Hfresh as [Hc Hrest].
  rewrite runCalls_cons.
  specialize (IH (applyCall store c) (applyCall_NoDup c store Hnd Hc) Hrest).
  destruct c as [id toastData|id];
    cbn [completedRemovals countAdds]; cbn [applyCall] in IH |- *.
  - unfold addToast in *. cbn [length] in IH. lia.
  - case_bool_decide as Hin.
    + pose proof (removeToast_length_present id store Hnd Hin). lia.
    + rewrite (removeToast_absent id store Hin) in *. lia.
Qed.

Lemma runCalls_sublist calls : ∀ store,
  runCalls calls store `sublist_of` reverse (addedToasts calls) ++ store.
Proof.
  induction calls as [|c calls IH]; intros store; [reflexivity|].
  rewrite runCalls_cons. destruct c as [id toastData|id]; simpl.
  - rewrite reverse_cons, <- app_assoc. apply IH.
  - etrans; [apply IH|]. apply sublist_app; [reflexivity|apply removeToast_sublist].
Qed.
End Store.

(** ** The expiry effect: lemmas *)

(** The delay falls back to 5000 whenever the stored duration is falsy
    and is not the number 0, in an entry that is not persistent. *)
Lemma expiryDelay_fallback (toast : Toast.t) :
  truthy_boolean (read (Toast.persistent toast)) = false →
  truthy_number (read (Toast.duration toast)) = false →
  strict_ne_zero (read (Toast.duration toast)) = true →
  expiryDelay toast = Some (Num 5000).
Proof.
  unfold expiryDelay. intros -> Hfalsy ->. simpl. f_equal.
  unfold or_else. rewrite Hfalsy. destruct (read (Toast.duration toast)); reflexivity.
Qed.

Lemma expiryDelay_persistent (toast : Toast.t) :
  read (Toast.persistent toast) = Some true → expiryDelay toast = None.
Proof. unfold expiryDelay. intros ->. reflexivity. Qed.

Lemma expiryDelay_zero (toast : Toast.t) :
  read (Toast.duration toast) = Some (Num 0) → expiryDelay toast = None.
Proof. unfold expiryDelay. intros ->. simpl. rewrite andb_false_r. reflexivity. Qed.

(** ** The claims about the store *)

(** C1, for fresh ids.  On every sequence of [addToast] and [removeToast]
    calls from the empty store in which the id of each new entry differs
    from the ids active at its add, the length of the active collection
    is the number of [addToast] calls minus the number of completed
    removals. *)
Theorem length_is_adds_minus_removals (calls : list Call) :
  freshIds calls [] = true →
  length (runCalls calls []) = countAdds calls - completedRemovals calls []
  ∧ completedRemovals calls [] ≤ countAdds calls.
Proof.
  intros Hfresh.
  pose proof (runCalls_length calls [] (NoDup_nil_2 : NoDup (ids [])) Hfresh) as H.
  simpl in H. lia.
Qed.

Lemma length_is_adds_minus_removals_witness :
  freshIds distinctCalls [] = true
  ∧ length (runCalls distinctCalls []) = 1
  ∧ countAdds distinctCalls - completedRemovals distinctCalls [] = 1.
Proof.
  split; [reflexivity|].
  pose proof (length_is_adds_minus_removals distinctCalls eq_refl) as [H _].
  split; [reflexivity|]. rewrite <- H. reflexivity.
Defined.

(** C1 without fresh ids: two entries that drew the same id leave with one
    removal, so two adds and one completed removal give length 0. *)
Lemma one_removal_drops_two_entries :
  length (runCalls collidingCalls []) = 0
  ∧ countAdds collidingCalls = 2
  ∧ completedRemovals collidingCalls [] = 1
  ∧ length (runCalls collidingCalls [])
    ≠ countAdds collidingCalls - completedRemovals collidingCalls [].
Proof. vm_compute. repeat split; try reflexivity. discriminate. Qed.

(** C2, for fresh ids.  On every sequence of calls from the empty store in
    which the id of each new entry differs from the ids active at its
    add, the ids of the active entries are pairwise distinct. *)
Theorem active_ids_unique (calls : list Call) :
  freshIds calls [] = true → NoDup (ids (runCalls calls [])).
Proof. intros Hfresh. apply runCalls_NoDup; [constructor|assumption]. Qed.

Lemma active_ids_unique_witness :
  freshIds distinctCalls [] = true ∧ NoDup (ids (runCalls distinctCalls [])).
Proof. split; [reflexivity|]. apply (active_ids_unique distinctCalls). reflexivity. Defined.

(** C2 without fresh ids: nothing in [addToast] compares the new id with
    the active ones, and two equal entryIds give two active entries with
    one id. *)
Lemma equal_draws_share_an_id :
  ¬ NoDup (ids (runCalls [CallAdd "i" (plain "first"); CallAdd "i" (plain "second")] [])).
Proof.
  vm_compute. intros H. apply NoDup_cons in H as [H _]. apply H. left.
Qed.

(** C3, with the freshness the generator gives.  Given a notification
    without id, [addToast] puts one new entry in front of the untouched
    collection; the entry carries the generated id, which is fresh among
    the active ids whenever the generator's result is; it carries the
    caller's duration when the caller gave that key and 5000 when not,
    and the caller's other fields as they were. *)
Theorem addToast_merges_and_prepends (id : string) (toastData : ToastData.t)
    (prev : list Toast.t) :
  ToastData.id toastData = None →
  ∃ toast : Toast.t,
    addToast id toastData prev = toast :: prev
    ∧ Toast.id toast = id
    ∧ (id ∉ ids prev → Toast.id toast ∉ ids prev)
    ∧ Toast.duration toast
      = match ToastData.duration toastData with
        | Absent => Present (Num 5000)
        | Undefined => Undefined
        | Present d => Present d
        end
    ∧ Toast.type toast = ToastData.type toastData
    ∧ Toast.title toast = ToastData.title toastData
    ∧ Toast.message toast = ToastData.message toastData
    ∧ Toast.persistent toast = ToastData.persistent toastData.
Proof.
  intros Hnoid.
  exists (newToast id toastData). unfold addToast, newToast. simpl. rewrite Hnoid.
  split; [reflexivity|]. split; [reflexivity|]. split; [tauto|].
  repeat split.
  - destruct (ToastData.duration toastData); reflexivity.
  - destruct (ToastData.title toastData); reflexivity.
  - destruct (ToastData.persistent toastData); reflexivity.
Qed.

Lemma addToast_merges_and_prepends_witness :
  ∃ toast : Toast.t,
    addToast "j" (plain "second") (addToast "i" (plain "first") [])
    = toast :: addToast "i" (plain "first") []
    ∧ Toast.id toast ∉ ids (addToast "i" (plain "first") [])
    ∧ Toast.duration toast = Present (Num 5000).
Proof.
  destruct (addToast_merges_and_prepends "j" (plain "second")
              (addToast "i" (plain "first") []) eq_refl)
    as (toast & Hadd & _ & Hfresh & Hdur & _).
  exists toast. split; [exact Hadd|]. split; [|exact Hdur].
  apply Hfresh. vm_compute. intros H.
  apply elem_of_cons in H as [H|H]; [discriminate|inversion H].
Defined.

(** C3 without a fresh draw: the generator may return an id that an
    active entry has, and [addToast] takes it as it comes. *)
Lemma generated_id_already_active :
  head (addToast "i" (plain "second") (addToast "i" (plain "first") []))
  = Some (newToast "i" (plain "second"))
  ∧ Toast.id (newToast "i" (plain "second"))
    ∈ ids (addToast "i" (plain "first") []).
Proof. split; [reflexivity|]. vm_compute. left. Qed.

(** C4.  Every add places its entry at the front, so after add(A) then
    add(B) the entry of B stands right before the entry of A; and after
    any sequence of calls the collection lists surviving entries newest
    first: it is a subsequence of the added entries in reverse order of
    insertion. *)
Theorem newest_first :
  (∀ id toastData prev,
     head (addToast id toastData prev) = Some (newToast id toastData))
  ∧ (∀ idA A idB B prev,
       addToast idB B (addToast idA A prev)
       = newToast idB B :: newToast idA A :: prev)
  ∧ (∀ calls, runCalls calls [] `sublist_of` reverse (addedToasts calls)).
Proof.
  split; [reflexivity|]. split; [reflexivity|].
  intros calls. pose proof (runCalls_sublist calls []) as H.
  rewrite app_nil_r in H. exact H.
Qed.

(** C5.  [removeToast] with an id that no active entry has returns the
    collection as it was; with an id that is active it returns the
    collection without the entries of that id, every other entry kept in
    place. *)
Theorem removeToast_absent_or_present (id : string) (prev : list Toast.t) :
  (id ∉ ids prev → removeToast id prev = prev)
  ∧ (id ∈ ids prev →
       (id ∉ ids (removeToast id prev))
       ∧ length (removeToast id prev) < length prev
       ∧ removeToast id prev `sublist_of` prev
       ∧ ∀ toast : Toast.t,
           toast ∈ removeToast id prev ↔ toast ∈ prev ∧ Toast.id toast ≠ id).
Proof.
  split; [apply removeToast_absent|]. intros Hin.
  split; [apply removeToast_gone|]. split.
  - unfold ids in Hin. apply list_elem_of_fmap in Hin as (toast & -> & Hin).
    unfold removeToast. apply (length_filter_lt _ _ toast); [assumption|]. tauto.
  - split; [apply removeToast_sublist|]. intros toast. apply elem_of_removeToast.
Qed.

Lemma removeToast_absent_or_present_witness :
  removeToast "zz" (runCalls [CallAdd "i" (plain "first")] [])
  = runCalls [CallAdd "i" (plain "first")] []
  ∧ "i" ∉ ids (removeToast "i" (runCalls [CallAdd "i" (plain "first")] [])).
Proof.
  split.
  - apply (removeToast_absent_or_present "zz").
    vm_compute. intros H. apply elem_of_cons in H as [H|H]; [discriminate|inversion H].
  - apply (removeToast_absent_or_present "i"). vm_compute. left.
Defined.

(** ** The claims about [useToast] and the legacy [toast] *)

(** C8.  With no provider mounted around the caller, [useToast] throws
    its error and returns no API object. *)
Theorem useToast_outside_provider_throws :
  useToast [] = Throw "useToast must be used within a ToastProvider"
  ∧ ∀ context : ToastContextType.t, useToast [] ≠ Return context.
Proof. split; [reflexivity|]. intros context. discriminate. Qed.

(** C9.  The legacy [toast] leaves the provider's state, and with it the
    active collection, as it was and adds one warning to the console,
    whatever its arguments. *)
Theorem legacy_toast_is_inert (message : string) (type : option ToastType.t)
    (p : Page) :
  world (toast message type p) = world p
  ∧ toasts (world (toast message type p)) = toasts (world p)
  ∧ console (toast message type p)
    = console p ++ ["Legacy toast function called. Please use useToast hook instead."].
Proof. repeat split. Qed.

(** ** The claims about the expiry effect *)

(** C10, for entries that are not persistent.  When the caller passes
    the key [duration] with the value [undefined] and does not make the entry persistent, the stored
    duration is [undefined], and the item arms its expiry timer with the
    delay 5000: it is due 5000 ms after the mount. *)
Theorem undefined_duration_expires_after_default (id : string)
    (toastData : ToastData.t) (t : Z) (k : nat) :
  ToastData.duration toastData = Undefined →
  read (ToastData.persistent toastData) ≠ Some true →
  read (Toast.duration (newToast id toastData)) = None
  ∧ expiryDelay (newToast id toastData) = Some (Num 5000)
  ∧ mountTimers t k (newToast id toastData)
    = [mkTimer (t + 10) (SetVisible k);
       mkTimer (t + 5000) (HandleRemove k (Toast.id (newToast id toastData)))]
  ∧ ∀ w : World,
      timers (doAdd id toastData w)
      = timers w ++ [mkTimer (now w + 10) (SetVisible (mounted w));
                     mkTimer (now w + 5000)
                       (HandleRemove (mounted w) (Toast.id (newToast id toastData)))].
Proof.
  intros Hdur Hpers.
  assert (Hread : read (Toast.duration (newToast id toastData)) = None).
  { simpl. rewrite Hdur. reflexivity. }
  assert (Hdelay : expiryDelay (newToast id toastData) = Some (Num 5000)).
  { apply expiryDelay_fallback.
    - simpl. destruct (ToastData.persistent toastData) as [| |[|]]; simpl in *; congruence.
    - rewrite Hread. reflexivity.
    - rewrite Hread. reflexivity. }
  split; [exact Hread|]. split; [exact Hdelay|].
  assert (Hmount : ∀ t k, mountTimers t k (newToast id toastData)
                   = [mkTimer (t + 10) (SetVisible k);
                      mkTimer (t + 5000)
                        (HandleRemove k (Toast.id (newToast id toastData)))]).
  { intros t' k'. unfold mountTimers. rewrite Hdelay. reflexivity. }
  split; [apply Hmount|].
  intros w. cbn [doAdd timers]. rewrite Hmount. reflexivity.
Qed.

Lemma undefined_duration_expires_after_default_witness :
  expiryDelay (newToast "i" (timed "m" Undefined Absent)) = Some (Num 5000).
Proof.
  apply (undefined_duration_expires_after_default "i" (timed "m" Undefined Absent) 0 0).
  - reflexivity.
  - discriminate.
Defined.

(** C10 for a persistent entry: an explicitly undefined duration together with
    [persistent: true] arms no expiry timer. *)
Lemma undefined_duration_persistent_no_timer :
  ToastData.duration (timed "m" Undefined (Present true)) = Undefined
  ∧ read (Toast.duration (newToast "i" (timed "m" Undefined (Present true)))) = None
  ∧ expiryDelay (newToast "i" (timed "m" Undefined (Present true))) ≠ Some (Num 5000)
  ∧ mountTimers 0 0 (newToast "i" (timed "m" Undefined (Present true)))
    = [mkTimer 10 (SetVisible 0)].
Proof. repeat split. discriminate. Qed.

(** ** The event loop: lemmas *)

Section Counting.
Implicit Types (id : string) (tms : list Timer) (ts : list Toast.t).

Lemma pending_nil id : pending id [] = 0.
Proof. reflexivity. Qed.

Lemma pending_app id tms tms' :
  pending id (tms ++ tms') = pending id tms + pending id tms'.
Proof. unfold pending. rewrite filter_app, length_app. reflexivity. Qed.

Lemma pending_cons id tm tms :
  pending id (tm :: tms)
  = (if decide (timerId tm = Some id) then 1 else 0) + pending id tms.
Proof.
  unfold pending. rewrite filter_cons. destruct (decide _); reflexivity.
Qed.

Lemma pending_filter id (P : Timer → Prop) `{∀ tm, Decision (P tm)} tms :
  pending id (filter P tms) ≤ pending id tms.
Proof.
  induction tms as [|tm tms IH]; [reflexivity|].
  rewrite filter_cons. destruct (decide (P tm)); rewrite !pending_cons; lia.
Qed.

Lemma pending_delete id n tm tms :
  tms !! n = Some tm →
  pending id (delete n tms) + (if decide (timerId tm = Some id) then 1 else 0)
  = pending id tms.
Proof.
  revert n. induction tms as [|tm' tms IH]; intros [|n] Hn; simpl in Hn; try discriminate.
  - injection Hn as ->. simpl. rewrite pending_cons. lia.
  - simpl. rewrite !pending_cons. specialize (IH n Hn). lia.
Qed.

Lemma pending_zero id tms :
  pending id tms = 0 ↔ ∀ tm, tm ∈ tms → timerId tm ≠ Some id.
Proof.
  induction tms as [|tm tms IH].
  - split; [intros _ tm H; inversion H|reflexivity].
  - rewrite pending_cons. split.
    + intros Hz tm' Hin. destruct (decide (timerId tm = Some id)) as [|Hne]; [lia|].
      apply elem_of_cons in Hin as [->|Hin]; [assumption|].
      apply IH; [lia|assumption].
    + intros Hall. destruct (decide (timerId tm = Some id)) as [Heq|_].
      * exfalso. apply (Hall tm); [left|assumption].
      * simpl. apply IH. intros tm' Hin. apply Hall. right. assumption.
Qed.

Lemma pending_pos id tm tms :
  tm ∈ tms → timerId tm = Some id → 1 ≤ pending id tms.
Proof.
  intros Hin Hid. destruct (pending id tms) eqn:E; [|lia].
  exfalso. eapply pending_zero; eassumption.
Qed.

Lemma copies_cons id (t : Toast.t) ts :
  copies id (t :: ts)
  = (if decide (Toast.id t = id) then 1 else 0) + copies id ts.
Proof.
  unfold copies. rewrite filter_cons. destruct (decide _); reflexivity.
Qed.

Lemma copies_zero id ts : id ∉ ids ts → copies id ts = 0.
Proof.
  induction ts as [|t ts IH]; [reflexivity|].
  rewrite ids_cons, not_elem_of_cons, copies_cons. intros [Hne Hrest].
  destruct (decide (Toast.id t = id)); [congruence|]. simpl. auto.
Qed.

Lemma copies_removeToast_other id id' ts :
  id' ≠ id → copies id (removeToast id' ts) = copies id ts.
Proof.
  intros Hne. unfold removeToast.
  induction ts as [|t ts IH]; [reflexivity|].
  rewrite filter_cons. destruct (decide (Toast.id t ≠ id')) as [Hkeep|Hdrop].
  - rewrite !copies_cons. lia.
  - rewrite copies_cons. destruct (decide (Toast.id t = id)) as [Heq|_]; [|exact IH].
    exfalso. apply Hdrop. congruence.
Qed.

(** A removal shortens the collection by the number of entries that
    carry the id. *)
Lemma removeToast_length id ts :
  length (removeToast id ts) + copies id ts = length ts.
Proof.
  unfold removeToast. induction ts as [|t ts IH]; [reflexivity|].
  rewrite filter_cons, copies_cons.
  destruct (decide (Toast.id t ≠ id)) as [Hkeep|Hdrop];
    destruct (decide (Toast.id t = id)) as [Heq|Hne]; simpl; try lia.
  - contradiction.
  - exfalso. apply Hdrop. assumption.
Qed.

Lemma copies_pos id (t : Toast.t) ts : t ∈ ts → Toast.id t = id → 1 ≤ copies id ts.
Proof.
  induction ts as [|t' ts IH]; intros Hin Hid; [inversion Hin|].
  rewrite copies_cons. apply elem_of_cons in Hin as [<-|Hin].
  - destruct (decide (Toast.id t = id)); [lia|contradiction].
  - specialize (IH Hin Hid). lia.
Qed.
End Counting.

Section Steps.
Implicit Types (w : World) (e : Event) (evs : list Event).

Lemma findItem_Some k its it :
  findItem k its = Some it → it ∈ its ∧ ToastItem.key it = k.
Proof.
  unfold findItem. intros H.
  assert (Hin : it ∈ filter (λ it, ToastItem.key it = k) its).
  { destruct (filter _ its) as [|x l]; simpl in H; [discriminate|].
    injection H as ->. left. }
  apply list_elem_of_filter in Hin. tauto.
Qed.

(** What a successful turn did. *)
Lemma step_inv w e w' :
  step w e = Some w' →
  match e with
  | AddToast id toastData => w' = doAdd id toastData w
  | RemoveToast id => w' = doRemove id w
  | Click k =>
      ∃ it, it ∈ items w ∧ ToastItem.key it = k
            ∧ w' = handleRemove k (Toast.id (ToastItem.toast it)) w
  | Fire n =>
      ∃ tm, timers w !! n = Some tm ∧ (due tm ≤ now w)%Z
            ∧ w' = runCallback (callback tm) (dequeue n w)
  | Elapse dt => (0 ≤ dt)%Z ∧ w' = advance dt w
  end.
Proof.
  destruct e as [id toastData|id|k|n|dt]; simpl; intros H.
  - congruence.
  - congruence.
  - destruct (findItem k (items w)) as [it|] eqn:E; [|discriminate].
    apply findItem_Some in E as [Hin Hk]. exists it. repeat split; congruence.
  - destruct (timers w !! n) as [tm|] eqn:E; [|discriminate].
    destruct (due tm <=? now w)%Z eqn:Hdue; [|discriminate].
    exists tm. repeat split; [lia|congruence].
  - destruct (0 <=? dt)%Z eqn:Hdt; [|discriminate]. split; [lia|congruence].
Qed.

Lemma run_app evs1 : ∀ evs2 w,
  run w (evs1 ++ evs2) = match run w evs1 with
                         | Some w1 => run w1 evs2
                         | None => None
                         end.
Proof.
  induction evs1 as [|e evs1 IH]; intros evs2 w; [reflexivity|].
  simpl. destruct (step w e); [apply IH|reflexivity].
Qed.

(** An invariant of the turns allowed by [ok] holds along every run of
    such turns. *)
Lemma run_invariant (P : World → Prop) (ok : Event → Prop) :
  (∀ w e w', P w → ok e → step w e = Some w' → P w') →
  ∀ evs w w', P w → Forall ok evs → run w evs = Some w' → P w'.
Proof.
  intros Hstep. induction evs as [|e evs IH]; intros w w' HP Hok Hrun.
  - simpl in Hrun. congruence.
  - simpl in Hrun. destruct (step w e) as [w1|] eqn:E; [|discriminate].
    apply Forall_cons in Hok as [He Hok].
    apply (IH w1); [eapply Hstep; eassumption|assumption|assumption].
Qed.

Lemma entryIds_app evs1 evs2 : entryIds (evs1 ++ evs2) = entryIds evs1 ++ entryIds evs2.
Proof.
  induction evs1 as [|[] evs1 IH]; simpl; rewrite ?IH; reflexivity.
Qed.

Lemma mounted_step w e w' : step w e = Some w' → mounted w' = mounted w + countMounts [e].
Proof.
  intros H. apply step_inv in H.
  destruct e as [id toastData|id|k|n|dt]; simpl.
  - subst. simpl. lia.
  - subst. simpl. lia.
  - destruct H as (it & _ & _ & ->). simpl. lia.
  - destruct H as (tm & _ & _ & ->). destruct (callback tm); simpl; lia.
  - destruct H as [_ ->]. simpl. lia.
Qed.

Lemma mounted_run evs : ∀ w w',
  run w evs = Some w' → mounted w' = mounted w + countMounts evs.
Proof.
  induction evs as [|e evs IH]; intros w w' H; simpl in H.
  - injection H as <-. simpl. lia.
  - destruct (step w e) as [w1|] eqn:E; [|discriminate].
    apply mounted_step in E. apply IH in H. rewrite H, E.
    destruct e; simpl; lia.
Qed.
End Steps.

Section Items.
Implicit Types (it : ToastItem.t) (its : list ToastItem.t).

Lemma setLeaving_same k it :
  ToastItem.key (setLeaving k it) = ToastItem.key it
  ∧ ToastItem.toast (setLeaving k it) = ToastItem.toast it.
Proof. unfold setLeaving. case_bool_decide; split; reflexivity. Qed.

Lemma setVisible_same k it :
  ToastItem.key (setVisible k it) = ToastItem.key it
  ∧ ToastItem.toast (setVisible k it) = ToastItem.toast it.
Proof. unfold setVisible. case_bool_decide; split; reflexivity. Qed.

Lemma owned_fmap k id (f : ToastItem.t → ToastItem.t) its :
  (∀ it, ToastItem.key (f it) = ToastItem.key it
         ∧ ToastItem.toast (f it) = ToastItem.toast it) →
  owned k id its → owned k id (f <$> its).
Proof.
  intros Hf Hown it' Hin Hid.
  apply list_elem_of_fmap in Hin as (it & -> & Hin).
  destruct (Hf it) as [Hk Ht]. rewrite Hk. rewrite Ht in Hid. auto.
Qed.

Lemma owned_filter k id (P : ToastItem.t → Prop) `{∀ it, Decision (P it)} its :
  owned k id its → owned k id (filter P its).
Proof.
  intros Hown it Hin. apply list_elem_of_filter in Hin as [_ Hin]. auto.
Qed.

Lemma owned_cons_other k id it its :
  Toast.id (ToastItem.toast it) ≠ id → owned k id its → owned k id (it :: its).
Proof.
  intros Hne Hown it' Hin. apply elem_of_cons in Hin as [->|Hin]; [contradiction|auto].
Qed.

Lemma timerId_mountTimers t k toast tm id :
  tm ∈ mountTimers t k toast → timerId tm = Some id → id = Toast.id toast.
Proof.
  unfold mountTimers. intros Hin Hid.
  apply elem_of_cons in Hin as [->|Hin]; [discriminate|].
  destruct (expiryDelay toast); [|inversion Hin].
  apply list_elem_of_singleton in Hin as ->.
  unfold timerId in Hid. simpl in Hid. congruence.
Qed.

Lemma pending_mountTimers_other t k toast id :
  Toast.id toast ≠ id → pending id (mountTimers t k toast) = 0.
Proof.
  intros Hne. apply pending_zero. intros tm Hin Hid.
  pose proof (timerId_mountTimers _ _ _ _ _ Hin Hid). congruence.
Qed.
End Items.

Section Target.
Variables (k : nat) (d : string).
Implicit Types (w : World) (e : Event).

Lemma timerId_callback (tm : Timer) :
  timerId tm = match callback tm with
               | SetVisible _ => None
               | HandleRemove _ id | OnRemove _ id => Some id
               end.
Proof. reflexivity. Qed.

(** The effect of one quiet turn on the entry [d] of item [k]. *)
Lemma step_target w e w' :
  owned k d (items w) → quiet k d e → step w e = Some w' →
  owned k d (items w')
  ∧ pending d (timers w') ≤ pending d (timers w)
  ∧ (kept d w w'
     ∨ (requested d w e ∧ pending d (timers w') < pending d (timers w)))
  ∧ inherited d w w'.
Proof.
  intros Hown [Hhands Hdraw] Hstep. apply step_inv in Hstep.
  destruct e as [id toastData|id|k'|n|dt].
  - (* addToast *)
    subst w'. cbn [entryIds] in Hdraw. rewrite list_elem_of_singleton in Hdraw.
    assert (Hne : Toast.id (newToast id toastData) ≠ d) by congruence.
    split; [|split; [|split]].
    + cbn [doAdd items]. apply owned_cons_other; [exact Hne|exact Hown].
    + cbn [doAdd timers].
      rewrite pending_app, pending_mountTimers_other by exact Hne. lia.
    + left. split.
      * cbn [doAdd toasts]. unfold addToast. rewrite copies_cons.
        destruct (decide (Toast.id (newToast id toastData) = d)); [contradiction|].
        reflexivity.
      * intros t _ Hin. cbn [doAdd toasts]. right. exact Hin.
    + intros tm' Hin Hid. cbn [doAdd timers] in Hin.
      apply elem_of_app in Hin as [Hin|Hin]; [left; exact Hin|].
      pose proof (timerId_mountTimers _ _ _ _ _ Hin Hid). congruence.
  - (* removeToast *)
    subst w'. simpl in Hhands. apply bool_decide_eq_true in Hhands.
    split; [|split; [|split]].
    + cbn [doRemove items]. apply owned_filter, Hown.
    + cbn [doRemove timers]. apply pending_filter.
    + left. split.
      * cbn [doRemove toasts]. apply copies_removeToast_other, Hhands.
      * intros t Hid Hin. cbn [doRemove toasts].
        apply elem_of_removeToast. split; [exact Hin|congruence].
    + intros tm' Hin _. left. cbn [doRemove timers] in Hin.
      apply list_elem_of_filter in Hin. tauto.
  - (* click *)
    destruct Hstep as (it & Hin & Hkey & ->).
    simpl in Hhands. apply bool_decide_eq_true in Hhands.
    assert (Hne : Toast.id (ToastItem.toast it) ≠ d).
    { intros Hid. apply Hhands. rewrite <- Hkey. apply Hown; assumption. }
    split; [|split; [|split]].
    + cbn [handleRemove items]. apply owned_fmap; [apply setLeaving_same|exact Hown].
    + cbn [handleRemove timers]. rewrite pending_app, pending_cons.
      rewrite timerId_callback. cbn [callback].
      rewrite pending_nil. destruct (decide _) as [Heq|_]; [congruence|]. lia.
    + left. split; [reflexivity|]. intros t _ Ht. exact Ht.
    + intros tm' Hin' Hid. cbn [handleRemove timers] in Hin'.
      apply elem_of_app in Hin' as [Hin'|Hin']; [left; exact Hin'|].
      apply list_elem_of_singleton in Hin' as ->.
      rewrite timerId_callback in Hid. cbn [callback] in Hid. congruence.
  - (* a timer fires *)
    destruct Hstep as (tm & Hn & Hdue & ->).
    pose proof (pending_delete d n tm (timers w) Hn) as Hdel.
    rewrite timerId_callback in Hdel.
    assert (Hold : ∀ tm', tm' ∈ delete n (timers w) → tm' ∈ timers w)
      by (intros tm'; apply list_elem_of_delete_inv).
    destruct (callback tm) as [k'|k' id|k' id] eqn:Hcb; cbn [runCallback].
    + (* the entrance tick *)
      destruct (decide _) as [Heq|_] in Hdel; [discriminate|].
      split; [|split; [|split]].
      * cbn [items dequeue]. apply owned_fmap; [apply setVisible_same|exact Hown].
      * cbn [timers dequeue]. lia.
      * left. split; [reflexivity|]. intros t _ Ht. exact Ht.
      * intros tm' Hin _. left. apply Hold. exact Hin.
    + (* the expiry timer *)
      split; [|split; [|split]].
      * cbn [handleRemove items dequeue].
        apply owned_fmap; [apply setLeaving_same|exact Hown].
      * cbn [handleRemove timers dequeue now]. rewrite pending_app, pending_cons.
        rewrite timerId_callback. cbn [callback].
        rewrite pending_nil.
        destruct (decide (Some id = Some d)); lia.
      * left. split; [reflexivity|]. intros t _ Ht. exact Ht.
      * intros tm' Hin Hid. cbn [handleRemove timers dequeue now] in Hin.
        apply elem_of_app in Hin as [Hin|Hin]; [left; apply Hold; exact Hin|].
        apply list_elem_of_singleton in Hin as ->.
        rewrite timerId_callback in Hid. cbn [callback] in Hid.
        injection Hid as ->. right. exists tm, k', k'.
        split; [eapply list_elem_of_lookup_2; exact Hn|]. repeat split; assumption.
    + (* the exit hold *)
      assert (Hle : pending d (timers (doRemove id (dequeue n w)))
                    ≤ pending d (delete n (timers w))).
      { cbn [doRemove timers dequeue]. apply pending_filter. }
      split; [|split; [|split]].
      * cbn [doRemove items dequeue]. apply owned_filter, Hown.
      * lia.
      * destruct (decide (Some id = Some d)) as [Heq|Hne] in Hdel.
        -- injection Heq as ->. right. split; [|lia].
           exists n, tm, k'. repeat split; assumption.
        -- left. assert (id ≠ d) by congruence. split.
           ++ cbn [doRemove toasts dequeue]. apply copies_removeToast_other. assumption.
           ++ intros t Hid Hin. cbn [doRemove toasts dequeue].
              apply elem_of_removeToast. split; [exact Hin|congruence].
      * intros tm' Hin _. left. apply Hold. cbn [doRemove timers dequeue] in Hin.
        apply list_elem_of_filter in Hin. tauto.
  - (* time passes *)
    destruct Hstep as [_ ->]. split; [exact Hown|]. split; [reflexivity|].
    split; [left; split; [reflexivity|intros t _ Ht; exact Ht]|].
    intros tm' Hin _. left. exact Hin.
Qed.
End Target.

Section Runs.
Implicit Types (w : World) (e : Event) (evs : list Event) (used : list string).

(** Where the pending timers of the next world come from. *)
Lemma timers_step w e w' tm' :
  step w e = Some w' → tm' ∈ timers w' →
  tm' ∈ timers w
  ∨ (∃ k id, callback tm' = OnRemove k id
             ∧ ((∃ it, it ∈ items w ∧ Toast.id (ToastItem.toast it) = id)
                ∨ ∃ tm, tm ∈ timers w ∧ timerId tm = Some id))
  ∨ (∃ id toastData, e = AddToast id toastData
                     ∧ tm' ∈ mountTimers (now w) (mounted w) (newToast id toastData)).
Proof.
  intros Hstep Hin. apply step_inv in Hstep.
  destruct e as [id toastData|id|k|n|dt].
  - subst w'. cbn [doAdd timers] in Hin.
    apply elem_of_app in Hin as [Hin|Hin]; [left; exact Hin|].
    right. right. eauto.
  - subst w'. cbn [doRemove timers] in Hin.
    apply list_elem_of_filter in Hin. tauto.
  - destruct Hstep as (it & Hit & Hkey & ->). cbn [handleRemove timers] in Hin.
    apply elem_of_app in Hin as [Hin|Hin]; [left; exact Hin|].
    apply list_elem_of_singleton in Hin as ->. right. left.
    exists k, (Toast.id (ToastItem.toast it)). split; [reflexivity|]. left. eauto.
  - destruct Hstep as (tm & Hn & Hdue & ->).
    assert (Htm : tm ∈ timers w) by (eapply list_elem_of_lookup_2; exact Hn).
    destruct (callback tm) as [k|k id|k id] eqn:Hcb; cbn [runCallback] in Hin.
    + cbn [timers dequeue] in Hin. left. eapply list_elem_of_delete_inv, Hin.
    + cbn [handleRemove timers dequeue now] in Hin.
      apply elem_of_app in Hin as [Hin|Hin];
        [left; eapply list_elem_of_delete_inv, Hin|].
      apply list_elem_of_singleton in Hin as ->. right. left.
      exists k, id. split; [reflexivity|]. right. exists tm. split; [exact Htm|].
      rewrite timerId_callback, Hcb. reflexivity.
    + cbn [doRemove timers dequeue] in Hin.
      apply list_elem_of_filter in Hin as [_ Hin].
      left. eapply list_elem_of_delete_inv, Hin.
  - destruct Hstep as [_ ->]. left. exact Hin.
Qed.

Lemma items_step w e w' it' :
  step w e = Some w' → it' ∈ items w' →
  (∃ it, it ∈ items w ∧ ToastItem.key it' = ToastItem.key it
         ∧ ToastItem.toast it' = ToastItem.toast it)
  ∨ (∃ id toastData, e = AddToast id toastData
                     ∧ it' = ToastItem.mk (mounted w) (newToast id toastData) false false).
Proof.
  intros Hstep Hin. apply step_inv in Hstep.
  assert (Hmap : ∀ (f : ToastItem.t → ToastItem.t),
             (∀ it, ToastItem.key (f it) = ToastItem.key it
                    ∧ ToastItem.toast (f it) = ToastItem.toast it) →
             it' ∈ f <$> items w →
             ∃ it, it ∈ items w ∧ ToastItem.key it' = ToastItem.key it
                   ∧ ToastItem.toast it' = ToastItem.toast it).
  { intros f Hf H. apply list_elem_of_fmap in H as (it & -> & H).
    exists it. split; [exact H|apply Hf]. }
  destruct e as [id toastData|id|k|n|dt].
  - subst w'. cbn [doAdd items] in Hin.
    apply elem_of_cons in Hin as [->|Hin]; [right; eauto|left; eauto].
  - subst w'. cbn [doRemove items] in Hin.
    apply list_elem_of_filter in Hin as [_ Hin]. left. eauto.
  - destruct Hstep as (it & _ & _ & ->). cbn [handleRemove items] in Hin.
    left. eapply Hmap; [apply setLeaving_same|exact Hin].
  - destruct Hstep as (tm & _ & _ & ->).
    destruct (callback tm) as [k|k id|k id]; cbn [runCallback] in Hin.
    + cbn [items dequeue] in Hin. left. eapply Hmap; [apply setVisible_same|exact Hin].
    + cbn [handleRemove items dequeue] in Hin.
      left. eapply Hmap; [apply setLeaving_same|exact Hin].
    + cbn [doRemove items dequeue] in Hin.
      apply list_elem_of_filter in Hin as [_ Hin]. left. eauto.
  - destruct Hstep as [_ ->]. left. eauto.
Qed.

Lemma toasts_step w e w' (t : Toast.t) :
  step w e = Some w' → t ∈ toasts w' →
  t ∈ toasts w ∨ ∃ id toastData, e = AddToast id toastData ∧ t = newToast id toastData.
Proof.
  intros Hstep Hin. apply step_inv in Hstep.
  destruct e as [id toastData|id|k|n|dt].
  - subst w'. cbn [doAdd toasts] in Hin. unfold addToast in Hin.
    apply elem_of_cons in Hin as [->|Hin]; [right; eauto|left; exact Hin].
  - subst w'. cbn [doRemove toasts] in Hin.
    apply elem_of_removeToast in Hin. tauto.
  - destruct Hstep as (it & _ & _ & ->). left. exact Hin.
  - destruct Hstep as (tm & _ & _ & ->).
    destruct (callback tm) as [k|k id|k id]; cbn [runCallback] in Hin.
    + left. exact Hin.
    + left. exact Hin.
    + cbn [doRemove toasts dequeue] in Hin.
      apply elem_of_removeToast in Hin. tauto.
  - destruct Hstep as [_ ->]. left. exact Hin.
Qed.

Lemma known_step used w e w' :
  known used w → step w e = Some w' → known (used ++ entryIds [e]) w'.
Proof.
  intros (Hts & Hits & Htms) Hstep. repeat split.
  - intros t Hin. apply elem_of_app.
    destruct (toasts_step _ _ _ _ Hstep Hin) as [Hold|(id & toastData & -> & ->)].
    + left. auto.
    + right. left.
  - intros it' Hin. apply elem_of_app.
    destruct (items_step _ _ _ _ Hstep Hin)
      as [(it & Hold & _ & ->)|(id & toastData & -> & ->)].
    + left. auto.
    + right. left.
  - intros tm' id Hin Hid. apply elem_of_app.
    destruct (timers_step _ _ _ _ Hstep Hin)
      as [Hold|[(k & id' & Hcb & Hsrc)|(id' & toastData & -> & Hnew)]].
    + left. eauto.
    + rewrite timerId_callback, Hcb in Hid. injection Hid as ->.
      left. destruct Hsrc as [(it & Hit & <-)|(tm & Htm & Htid)]; eauto.
    + right. pose proof (timerId_mountTimers _ _ _ _ _ Hnew Hid) as ->. left.
Qed.

Lemma known_run evs : ∀ used w w',
  known used w → run w evs = Some w' → known (used ++ entryIds evs) w'.
Proof.
  induction evs as [|e evs IH]; intros used w w' Hk Hrun; simpl in Hrun.
  - injection Hrun as <-. simpl. rewrite app_nil_r. exact Hk.
  - destruct (step w e) as [w1|] eqn:E; [|discriminate].
    pose proof (IH _ _ _ (known_step _ _ _ _ Hk E) Hrun) as H.
    rewrite <- app_assoc in H. change (e :: evs) with ([e] ++ evs).
    rewrite entryIds_app. exact H.
Qed.

Lemma known_initial : known [] initial.
Proof.
  repeat split; simpl; intros;
    match goal with H : _ ∈ [] |- _ => inversion H end.
Qed.

(** An id that no added entry had is nowhere in the world. *)
Lemma known_fresh used w id k :
  known used w → id ∉ used →
  owned k id (items w) ∧ pending id (timers w) = 0 ∧ copies id (toasts w) = 0.
Proof.
  intros (Hts & Hits & Htms) Hfresh. repeat split.
  - intros it Hin Hid. exfalso. apply Hfresh. rewrite <- Hid. auto.
  - apply pending_zero. intros tm Hin Hid. apply Hfresh. eauto.
  - apply copies_zero. unfold ids. intros Hin.
    apply list_elem_of_fmap in Hin as (t & -> & Hin). auto.
Qed.

(** Expiry timers belong to items that were mounted. *)
Lemma expiry_keys_below evs : ∀ w w',
  (∀ tm k id, tm ∈ timers w → callback tm = HandleRemove k id → k < mounted w) →
  run w evs = Some w' →
  ∀ tm k id, tm ∈ timers w' → callback tm = HandleRemove k id → k < mounted w'.
Proof.
  intros w w' Hw Hrun.
  apply (run_invariant
           (λ w, ∀ tm k id, tm ∈ timers w → callback tm = HandleRemove k id
                            → k < mounted w)
           (λ _, True)) with (evs := evs) (w := w); try assumption.
  - clear. intros w e w' Hw _ Hstep tm' k id Hin Hcb.
    pose proof (mounted_step _ _ _ Hstep) as Hm.
    destruct (timers_step _ _ _ _ Hstep Hin)
      as [Hold|[(k' & id' & Hcb' & _)|(id' & toastData & -> & Hnew)]].
    + specialize (Hw _ _ _ Hold Hcb). lia.
    + congruence.
    + unfold mountTimers in Hnew. apply elem_of_cons in Hnew as [->|Hnew];
        [discriminate|].
      destruct (expiryDelay _); [|inversion Hnew].
      apply list_elem_of_singleton in Hnew as ->. simpl in Hcb.
      injection Hcb as <- _. simpl in Hm. lia.
  - apply Forall_forall. intros; exact I.
Qed.

(** An item that armed no expiry timer when it mounted never has one. *)
Lemma no_expiry_timer_later evs k : ∀ w w',
  k < mounted w →
  (∀ tm id, tm ∈ timers w → callback tm ≠ HandleRemove k id) →
  run w evs = Some w' →
  ∀ tm id, tm ∈ timers w' → callback tm ≠ HandleRemove k id.
Proof.
  intros w w' Hk Hw Hrun.
  apply (run_invariant
           (λ w, k < mounted w
                 ∧ ∀ tm id, tm ∈ timers w → callback tm ≠ HandleRemove k id)
           (λ _, True)) with (evs := evs) (w := w); try (split; assumption);
    try assumption.
  - clear. intros w e w' [Hk Hw] _ Hstep.
    pose proof (mounted_step _ _ _ Hstep) as Hm. split; [lia|].
    intros tm' id Hin Hcb.
    destruct (timers_step _ _ _ _ Hstep Hin)
      as [Hold|[(k' & id' & Hcb' & _)|(id' & toastData & -> & Hnew)]].
    + exact (Hw _ _ Hold Hcb).
    + congruence.
    + unfold mountTimers in Hnew. apply elem_of_cons in Hnew as [->|Hnew];
        [discriminate|].
      destruct (expiryDelay _); [|inversion Hnew].
      apply list_elem_of_singleton in Hnew as ->. simpl in Hcb.
      injection Hcb as <- _. lia.
  - apply Forall_forall. intros; exact I.
Qed.
End Runs.

Section Entry.
Variables (k : nat) (d : string).
Implicit Types (w : World) (post : list Event).

Lemma quiet_Forall post :
  forallb (handsOff k d) post = true → d ∉ entryIds post → Forall (quiet k d) post.
Proof.
  induction post as [|e post IH]; intros Hh Hd; [constructor|].
  simpl in Hh. apply andb_true_iff in Hh as [He Hh].
  change (e :: post) with ([e] ++ post) in Hd. rewrite entryIds_app in Hd.
  apply not_elem_of_app in Hd as [Hd1 Hd2].
  constructor; [split; assumption|auto].
Qed.

(** An entry that no pending timer will act on survives every run of
    quiet turns. *)
Lemma entry_stays (t : Toast.t) post w w' :
  Toast.id t = d →
  owned k d (items w) → pending d (timers w) = 0 → t ∈ toasts w →
  Forall (quiet k d) post → run w post = Some w' →
  t ∈ toasts w'.
Proof.
  intros Hid Hown Hpend Hin Hquiet Hrun.
  apply (run_invariant
           (λ w, owned k d (items w) ∧ pending d (timers w) = 0 ∧ t ∈ toasts w)
           (quiet k d)) with (evs := post) (w := w); try assumption; [|auto].
  clear - Hid. intros w e w' (Hown & Hpend & Hin) Hq Hstep.
  destruct (step_target k d w e w' Hown Hq Hstep) as (Hown' & Hle & Halt & _).
  split; [exact Hown'|]. split; [lia|].
  destruct Halt as [[_ Hkept]|[(n & tm & k' & _ & Hn & Hcb) _]]; [auto|].
  exfalso. apply list_elem_of_lookup_2 in Hn.
  assert (1 ≤ pending d (timers w)); [|lia].
  eapply pending_pos; [exact Hn|]. rewrite timerId_callback, Hcb. reflexivity.
Qed.

(** From the mount at time [T] on, the timers of a default entry keep
    their distance: the expiry timer is due at [T + 5000] or later, an
    exit hold at [T + 5300] or later, at most one of them is pending,
    and while one is pending the entry is in the store once. *)
Lemma expiry_chain (T : Z) post w w' :
  owned k d (items w) →
  pending d (timers w) ≤ 1 →
  (1 ≤ pending d (timers w) → copies d (toasts w) = 1) →
  (∀ tm k', tm ∈ timers w → callback tm = HandleRemove k' d → (T + 5000 ≤ due tm)%Z) →
  (∀ tm k', tm ∈ timers w → callback tm = OnRemove k' d → (T + 5300 ≤ due tm)%Z) →
  Forall (quiet k d) post → run w post = Some w' →
  (1 ≤ pending d (timers w') → copies d (toasts w') = 1)
  ∧ (∀ tm k', tm ∈ timers w' → callback tm = OnRemove k' d → (T + 5300 ≤ due tm)%Z).
Proof.
  intros Hown Hpend Hcopies Hexp Hexit Hquiet Hrun.
  cut (owned k d (items w') ∧ pending d (timers w') ≤ 1
       ∧ (1 ≤ pending d (timers w') → copies d (toasts w') = 1)
       ∧ (∀ tm k', tm ∈ timers w' → callback tm = HandleRemove k' d
                   → (T + 5000 ≤ due tm)%Z)
       ∧ (∀ tm k', tm ∈ timers w' → callback tm = OnRemove k' d
                   → (T + 5300 ≤ due tm)%Z)); [tauto|].
  apply (run_invariant
           (λ w, owned k d (items w) ∧ pending d (timers w) ≤ 1
                 ∧ (1 ≤ pending d (timers w) → copies d (toasts w) = 1)
                 ∧ (∀ tm k', tm ∈ timers w → callback tm = HandleRemove k' d
                             → (T + 5000 ≤ due tm)%Z)
                 ∧ (∀ tm k', tm ∈ timers w → callback tm = OnRemove k' d
                             → (T + 5300 ≤ due tm)%Z))
           (quiet k d)) with (evs := post) (w := w); try assumption; [|tauto].
  clear. intros w e w' (Hown & Hpend & Hcopies & Hexp & Hexit) Hq Hstep.
  destruct (step_target k d w e w' Hown Hq Hstep) as (Hown' & Hle & Halt & Hinh).
  split; [exact Hown'|]. split; [lia|]. split; [|split].
  - intros Hpos. destruct Halt as [[Hsame _]|[_ Hlt]]; [|lia].
    rewrite Hsame. apply Hcopies. lia.
  - intros tm' k' Hin Hcb.
    destruct (Hinh tm') as [Hold|(tm & k1 & k2 & _ & _ & _ & Hcb' & _)];
      [exact Hin|rewrite timerId_callback, Hcb; reflexivity|eauto|congruence].
  - intros tm' k' Hin Hcb.
    destruct (Hinh tm') as [Hold|(tm & k1 & k2 & Htm & Hcbtm & Hdue & _ & Hdue')];
      [exact Hin|rewrite timerId_callback, Hcb; reflexivity|eauto|].
    specialize (Hexp tm k1 Htm Hcbtm). lia.
Qed.
End Entry.

Section Mount.
Implicit Types (w : World) (pre post : list Event).

Lemma run_split pre e post w' :
  run initial (pre ++ e :: post) = Some w' →
  ∃ w0 w1, run initial pre = Some w0 ∧ step w0 e = Some w1 ∧ run w1 post = Some w'.
Proof.
  rewrite run_app. destruct (run initial pre) as [w0|]; [|discriminate].
  simpl. destruct (step w0 e) as [w1|] eqn:E; [|discriminate]. eauto.
Qed.

Lemma entryIds_split pre id toastData post :
  NoDup (entryIds (pre ++ AddToast id toastData :: post)) →
  (Toast.id (newToast id toastData) ∉ entryIds pre)
  ∧ Toast.id (newToast id toastData) ∉ entryIds post.
Proof.
  rewrite entryIds_app. cbn [entryIds]. intros H.
  apply NoDup_app in H as (_ & Hdisj & Hrest).
  apply NoDup_cons in Hrest as [Hpost _]. split; [|exact Hpost].
  intros Hin. apply (Hdisj _ Hin). left.
Qed.

(** The world in which an entry is added knows nothing of its id, when
    no entry had the id before. *)
Lemma mount_fresh pre w0 id :
  run initial pre = Some w0 → id ∉ entryIds pre →
  mounted w0 = countMounts pre
  ∧ owned (mounted w0) id (items w0)
  ∧ pending id (timers w0) = 0 ∧ copies id (toasts w0) = 0.
Proof.
  intros Hrun Hfresh. split.
  - apply mounted_run in Hrun. simpl in Hrun. exact Hrun.
  - apply (known_fresh (entryIds pre)); [|exact Hfresh].
    apply (known_run pre [] initial w0 known_initial Hrun).
Qed.

Lemma owned_doAdd d id toastData w0 :
  owned (mounted w0) d (items w0) →
  owned (mounted w0) d (items (doAdd id toastData w0)).
Proof.
  intros Hown it Hin Hid. cbn [doAdd items] in Hin.
  apply elem_of_cons in Hin as [->|Hin]; [reflexivity|auto].
Qed.
End Mount.

Section Defaults.
Implicit Types (id : string) (toastData : ToastData.t).

Lemma mountTimers_default t k id toastData :
  ToastData.duration toastData = Absent →
  ToastData.persistent toastData = Absent →
  mountTimers t k (newToast id toastData)
  = [mkTimer (t + 10) (SetVisible k);
     mkTimer (t + 5000) (HandleRemove k (Toast.id (newToast id toastData)))].
Proof.
  intros Hdur Hpers. unfold mountTimers, expiryDelay, newToast. simpl.
  rewrite Hdur, Hpers. reflexivity.
Qed.

Lemma mountTimers_none t k (toast : Toast.t) :
  expiryDelay toast = None → mountTimers t k toast = [mkTimer (t + 10) (SetVisible k)].
Proof. unfold mountTimers. intros ->. reflexivity. Qed.

Lemma expiryDelay_never id toastData :
  ToastData.persistent toastData = Present true
  ∨ (ToastData.duration toastData = Present (Num 0)
     ∧ read (ToastData.persistent toastData) = None) →
  expiryDelay (newToast id toastData) = None.
Proof.
  intros [Hpers|[Hdur _]].
  - apply expiryDelay_persistent. simpl. rewrite Hpers. reflexivity.
  - apply expiryDelay_zero. simpl. rewrite Hdur. reflexivity.
Qed.
End Defaults.

(** ** The claims about expiry in the event loop *)

(** C6, for pairwise distinct entry ids.  For a notification with
    [persistent = true], and likewise for one with [duration = 0] and
    [persistent] unset, the expiry effect arms no timer.  In a run in
    which the ids of the added entries are pairwise distinct, no expiry
    timer is ever pending for its item, and it stays in the active
    collection for as long as nobody clicks its close button or calls
    [removeToast] with its id, whatever time passes. *)
Theorem persistent_never_expires (pre post : list Event) (id : string)
    (toastData : ToastData.t) (w' : World) :
  ToastData.persistent toastData = Present true
  ∨ (ToastData.duration toastData = Present (Num 0)
     ∧ read (ToastData.persistent toastData) = None) →
  run initial (pre ++ AddToast id toastData :: post) = Some w' →
  expiryDelay (newToast id toastData) = None
  ∧ (NoDup (entryIds (pre ++ AddToast id toastData :: post)) →
     (∀ tm id', tm ∈ timers w' → callback tm ≠ HandleRemove (countMounts pre) id')
     ∧ (forallb (handsOff (countMounts pre) (Toast.id (newToast id toastData))) post
        = true →
        newToast id toastData ∈ toasts w')).
Proof.
  intros Hnever Hrun.
  pose proof (expiryDelay_never id toastData Hnever) as Hdelay.
  apply run_split in Hrun as (w0 & w1 & Hpre & Hadd & Hpost).
  simpl in Hadd. injection Hadd as <-.
  pose proof (mounted_run _ _ _ Hpre) as Hk. simpl in Hk. rewrite <- Hk.
  split; [exact Hdelay|]. intros Hnd. split.
  - apply (no_expiry_timer_later post (mounted w0) (doAdd id toastData w0) w');
      [simpl; lia| |exact Hpost].
    intros tm id' Hin Hcb. cbn [doAdd timers] in Hin.
    rewrite mountTimers_none in Hin by exact Hdelay.
    apply elem_of_app in Hin as [Hin|Hin].
    + assert (mounted w0 < mounted w0); [|lia].
      eapply (expiry_keys_below pre initial w0); [|exact Hpre|exact Hin|exact Hcb].
      intros ? ? ? H. inversion H.
    + apply list_elem_of_singleton in Hin as ->. discriminate.
  - intros Hhands. apply entryIds_split in Hnd as [Hfresh Hlater].
    destruct (mount_fresh pre w0 _ Hpre Hfresh) as (_ & Hown & Hpend & _).
    apply (entry_stays (mounted w0) (Toast.id (newToast id toastData))
             (newToast id toastData) post (doAdd id toastData w0) w').
    + reflexivity.
    + apply owned_doAdd, Hown.
    + cbn [doAdd timers]. rewrite pending_app, Hpend.
      rewrite mountTimers_none by exact Hdelay. reflexivity.
    + left.
    + apply quiet_Forall; assumption.
    + exact Hpost.
Qed.

Lemma persistent_never_expires_witness :
  (∃ w', run initial ([] ++ AddToast "p" (sticky "kept") :: besideRun) = Some w'
         ∧ now w' = 105300%Z
         ∧ newToast "p" (sticky "kept") ∈ toasts w')
  ∧ (∃ w', run initial ([] ++ AddToast "z" (timed "zero" (Present (Num 0)) Absent)
                            :: besideRun) = Some w'
           ∧ newToast "z" (timed "zero" (Present (Num 0)) Absent) ∈ toasts w').
Proof.
  split.
  - eexists. split; [reflexivity|]. split; [reflexivity|].
    eapply (persistent_never_expires [] besideRun "p" (sticky "kept")).
    + left. reflexivity.
    + reflexivity.
    + simpl. apply NoDup_cons. split; [|apply NoDup_singleton].
      rewrite list_elem_of_singleton. discriminate.
    + reflexivity.
  - eexists. split; [reflexivity|].
    eapply (persistent_never_expires [] besideRun "z"
              (timed "zero" (Present (Num 0)) Absent)).
    + right. split; reflexivity.
    + reflexivity.
    + simpl. apply NoDup_cons. split; [|apply NoDup_singleton].
      rewrite list_elem_of_singleton. discriminate.
    + reflexivity.
Defined.

(** C6 without distinct ids: a persistent entry whose id a later default
    entry got again leaves the collection when the exit hold of that
    later entry is over, 5300 ms after it was added, with no click and
    no call of [removeToast]. *)
Lemma persistent_removed_with_twin :
  ToastData.persistent (sticky "kept") = Present true
  ∧ forallb (handsOff 0 "i") twinOfSticky = true
  ∧ ∃ w', run initial ([] ++ AddToast "i" (sticky "kept") :: twinOfSticky) = Some w'
          ∧ now w' = 5300%Z
          ∧ toasts w' = []
          ∧ newToast "i" (sticky "kept") ∉ toasts w'.
Proof.
  split; [reflexivity|]. split; [reflexivity|].
  eexists. split; [reflexivity|]. split; [reflexivity|]. split; [reflexivity|].
  simpl. intros H. inversion H.
Qed.

(** C7, for pairwise distinct entry ids and no manual dismissal.  Take
    a notification added with default settings at time [T], in a run in
    which the ids of the added entries are pairwise distinct and in
    which, after the add, nobody clicks its close button or calls
    [removeToast] with its id.  Whenever its item requests its removal,
    the time is [T + 5000 + 300] or later, and the removal shortens the
    active collection by exactly one. *)
Theorem default_removal_request (pre post : list Event) (id : string)
    (toastData : ToastData.t) (w0 w w' : World) (n : nat) (tm : Timer) :
  ToastData.duration toastData = Absent →
  ToastData.persistent toastData = Absent →
  NoDup (entryIds (pre ++ AddToast id toastData :: post)) →
  forallb (handsOff (countMounts pre) (Toast.id (newToast id toastData))) post = true →
  run initial pre = Some w0 →
  run initial (pre ++ AddToast id toastData :: post) = Some w →
  timers w !! n = Some tm →
  callback tm = OnRemove (countMounts pre) (Toast.id (newToast id toastData)) →
  step w (Fire n) = Some w' →
  (now w0 + 5000 + 300 ≤ now w)%Z
  ∧ S (length (toasts w')) = length (toasts w).
Proof.
  intros Hdur Hpers Hnd Hhands Hpre Hrun Hn Hcb Hfire.
  apply run_split in Hrun as (w0' & w1 & Hpre' & Hadd & Hpost).
  assert (w0' = w0) as -> by congruence.
  simpl in Hadd. injection Hadd as <-.
  apply entryIds_split in Hnd as [Hfresh Hlater].
  set (d := Toast.id (newToast id toastData)) in *.
  destruct (mount_fresh pre w0 d Hpre Hfresh) as (Hk & Hown & Hpend & Hcopies).
  rewrite <- Hk in *.
  pose proof (proj1 (pending_zero d (timers w0)) Hpend) as Hnone.
  assert (Hmount : mountTimers (now w0) (mounted w0) (newToast id toastData)
                   = [mkTimer (now w0 + 10) (SetVisible (mounted w0));
                      mkTimer (now w0 + 5000) (HandleRemove (mounted w0) d)])
    by (apply mountTimers_default; assumption).
  destruct (expiry_chain (mounted w0) d (now w0) post (doAdd id toastData w0) w)
    as [Hone Hexit].
  - apply owned_doAdd, Hown.
  - cbn [doAdd timers]. rewrite pending_app, Hpend, Hmount.
    rewrite !pending_cons, pending_nil. unfold timerId. cbn [callback].
    repeat destruct (decide _); try discriminate; lia.
  - intros _. cbn [doAdd toasts]. unfold addToast. rewrite copies_cons, Hcopies.
    destruct (decide _) as [_|Hne]; [reflexivity|]. exfalso. apply Hne. reflexivity.
  - intros tm' k' Hin Hcb'. cbn [doAdd timers] in Hin. rewrite Hmount in Hin.
    apply elem_of_app in Hin as [Hin|Hin].
    + exfalso. apply (Hnone tm' Hin). rewrite timerId_callback, Hcb'. reflexivity.
    + apply elem_of_cons in Hin as [->|Hin]; [discriminate|].
      apply list_elem_of_singleton in Hin as ->. cbn [due doAdd now]. lia.
  - intros tm' k' Hin Hcb'. cbn [doAdd timers] in Hin. rewrite Hmount in Hin.
    apply elem_of_app in Hin as [Hin|Hin].
    + exfalso. apply (Hnone tm' Hin). rewrite timerId_callback, Hcb'. reflexivity.
    + apply elem_of_cons in Hin as [->|Hin]; [discriminate|].
      apply list_elem_of_singleton in Hin as ->. discriminate.
  - apply quiet_Forall; assumption.
  - exact Hpost.
  - apply step_inv in Hfire as (tm0 & Hn0 & Hdue & ->).
    assert (tm0 = tm) as -> by congruence.
    assert (Hin : tm ∈ timers w) by (eapply list_elem_of_lookup_2; exact Hn).
    split.
    + specialize (Hexit tm _ Hin Hcb). lia.
    + rewrite Hcb. cbn [runCallback doRemove toasts dequeue].
      pose proof (removeToast_length d (toasts w)) as Hlen.
      rewrite Hone in Hlen; [lia|].
      eapply pending_pos; [exact Hin|]. rewrite timerId_callback, Hcb. reflexivity.
Qed.

Lemma default_removal_request_witness :
  ∃ w0 w w',
    run initial olderFirst = Some w0
    ∧ run initial (olderFirst ++ AddToast "i" (plain "first") :: expiryWait) = Some w
    ∧ step w (Fire 3) = Some w'
    ∧ (now w0 + 5000 + 300 ≤ now w)%Z
    ∧ S (length (toasts w')) = length (toasts w).
Proof.
  eexists _, _, _.
  split; [reflexivity|]. split; [reflexivity|]. split; [reflexivity|].
  eapply (default_removal_request olderFirst expiryWait "i" (plain "first")
            _ _ _ 3 (mkTimer 5300 (OnRemove 1 "i"))); try reflexivity.
  simpl. apply NoDup_cons. split; [|apply NoDup_singleton].
  rewrite list_elem_of_singleton. discriminate.
Defined.

(** C7 without these conditions fails on either half.  When two default
    entries got the same id, the removal that the first one requests after its exit
    hold takes both away, so the length falls by two; and an entry the
    user closes at once requests its removal 300 ms after the add. *)
Lemma removal_request_two_at_once_or_early :
  (forallb (handsOff 0 "i") twinOfDefault = true
   ∧ ∃ w w',
       run initial ([] ++ AddToast "i" (plain "first") :: twinOfDefault) = Some w
       ∧ timers w !! 3 = Some (mkTimer 5300 (OnRemove 0 "i"))
       ∧ step w (Fire 3) = Some w'
       ∧ length (toasts w) = 2 ∧ length (toasts w') = 0
       ∧ S (length (toasts w')) ≠ length (toasts w))
  ∧ (NoDup (entryIds ([] ++ AddToast "i" (plain "first") :: closedAtOnce))
     ∧ ∃ w w',
         run initial ([] ++ AddToast "i" (plain "first") :: closedAtOnce) = Some w
         ∧ timers w !! 2 = Some (mkTimer 300 (OnRemove 0 "i"))
         ∧ step w (Fire 2) = Some w'
         ∧ now w = 300%Z
         ∧ ¬ (0 + 5000 + 300 ≤ now w)%Z).
Proof.
  split.
  - split; [reflexivity|].
    eexists _, _. split; [reflexivity|]. split; [reflexivity|].
    split; [reflexivity|]. split; [reflexivity|]. split; [reflexivity|].
    simpl. discriminate.
  - split; [simpl; apply NoDup_singleton|].
    eexists _, _. split; [reflexivity|]. split; [reflexivity|].
    split; [reflexivity|]. split; [reflexivity|]. simpl. lia.
Qed.

(** ** Further properties of the store *)

Section StoreAlgebra.
Implicit Types (id : string) (toastData : ToastData.t) (prev : list Toast.t).

Lemma removeToast_cons id (t : Toast.t) prev :
  removeToast id (t :: prev)
  = if decide (Toast.id t ≠ id) then t :: removeToast id prev else removeToast id prev.
Proof. unfold removeToast. rewrite filter_cons. reflexivity. Qed.

Lemma removeToast_addToast_same id toastData prev :
  removeToast (Toast.id (newToast id toastData)) (addToast id toastData prev)
  = removeToast (Toast.id (newToast id toastData)) prev.
Proof.
  unfold addToast. rewrite removeToast_cons.
  destruct (decide _) as [Hne|_]; [|reflexivity]. exfalso. apply Hne. reflexivity.
Qed.

Lemma removeToast_addToast_other id id' toastData prev :
  id' ≠ Toast.id (newToast id toastData) →
  removeToast id' (addToast id toastData prev) = addToast id toastData (removeToast id' prev).
Proof.
  intros Hne. unfold addToast. rewrite removeToast_cons.
  destruct (decide _) as [_|Heq]; [reflexivity|].
  exfalso. apply Heq. congruence.
Qed.

Lemma removeToast_comm id id' prev :
  removeToast id (removeToast id' prev) = removeToast id' (removeToast id prev).
Proof.
  induction prev as [|t prev IH]; [reflexivity|].
  rewrite !removeToast_cons.
  destruct (decide (Toast.id t ≠ id')), (decide (Toast.id t ≠ id));
    rewrite ?removeToast_cons; repeat destruct (decide _);
    try contradiction; congruence.
Qed.

Lemma runCalls_removed calls : ∀ store,
  length (runCalls calls store) + removedEntries calls store
  = length store + countAdds calls.
Proof.
  induction calls as [|c calls IH]; intros store; [simpl; lia|].
  rewrite runCalls_cons. specialize (IH (applyCall store c)).
  destruct c as [id toastData|id]; cbn [removedEntries countAdds applyCall] in *.
  - unfold addToast in *. cbn [length] in IH. lia.
  - pose proof (removeToast_length id store). lia.
Qed.
End StoreAlgebra.

(** X1.  Removing an id twice is the same as removing it once, and
    removals of two ids can be done in either order. *)
Theorem removeToast_idempotent_and_commutes (id id' : string) (prev : list Toast.t) :
  removeToast id (removeToast id prev) = removeToast id prev
  ∧ removeToast id (removeToast id' prev) = removeToast id' (removeToast id prev).
Proof.
  split; [|apply removeToast_comm].
  apply removeToast_absent, removeToast_gone.
Qed.

(** X2.  Removing the id the new entry carries, the generated one or the
    argument's own, right after the add undoes the add and removes the
    older entries of that id with it; when that id was not active
    before, the collection is back to what it was. *)
Theorem add_then_remove (id : string) (toastData : ToastData.t) (prev : list Toast.t) :
  removeToast (Toast.id (newToast id toastData)) (addToast id toastData prev)
  = removeToast (Toast.id (newToast id toastData)) prev
  ∧ (Toast.id (newToast id toastData) ∉ ids prev →
     removeToast (Toast.id (newToast id toastData)) (addToast id toastData prev)
     = prev).
Proof.
  split; [apply removeToast_addToast_same|].
  intros Hfresh. rewrite removeToast_addToast_same. apply removeToast_absent, Hfresh.
Qed.

Lemma add_then_remove_witness :
  removeToast "k" (addToast "j" (carrying "k" "second") (addToast "i" (plain "first") []))
  = addToast "i" (plain "first") [].
Proof.
  apply (add_then_remove "j" (carrying "k" "second") (addToast "i" (plain "first") [])).
  vm_compute. intros H. apply elem_of_cons in H as [H|H]; [discriminate|inversion H].
Defined.

(** X3.  Removing an id other than the one the new entry carries leaves
    the new entry where it is: the removal and the add can be
    swapped. *)
Theorem remove_other_then_add (id id' : string) (toastData : ToastData.t)
    (prev : list Toast.t) :
  id' ≠ Toast.id (newToast id toastData) →
  removeToast id' (addToast id toastData prev)
  = addToast id toastData (removeToast id' prev).
Proof. apply removeToast_addToast_other. Qed.

Lemma remove_other_then_add_witness :
  removeToast "i" (addToast "j" (carrying "k" "second") (addToast "i" (plain "first") []))
  = addToast "j" (carrying "k" "second") [].
Proof.
  rewrite (remove_other_then_add "j" "i" (carrying "k" "second")) by discriminate.
  reflexivity.
Defined.

(** X4.  On every sequence of calls from the empty store, whatever ids
    are drawn, the length of the collection is the number of adds minus
    the number of entries the removals took out, a removal taking out as
    many entries as carry its id. *)
Theorem length_is_adds_minus_removed_entries (calls : list Call) :
  length (runCalls calls []) = countAdds calls - removedEntries calls []
  ∧ removedEntries calls [] ≤ countAdds calls.
Proof.
  pose proof (runCalls_removed calls []) as H. simpl in H. lia.
Qed.

(** X5.  Each of the four shorthands adds, in front, an entry of its own
    type with the given message and title, duration 5000 and no
    persistence; the item of such an entry always arms its expiry timer,
    with delay 5000. *)
Theorem shorthands_add_expiring_entries (id message : string)
    (title : option string) (prev : list Toast.t) :
  Forall (λ '(f, ty),
            ∃ toast : Toast.t,
              f id message title prev = toast :: prev
              ∧ Toast.id toast = id
              ∧ Toast.type toast = ty
              ∧ Toast.message toast = message
              ∧ read (Toast.title toast) = title
              ∧ Toast.duration toast = Present (Num 5000)
              ∧ Toast.persistent toast = Absent
              ∧ expiryDelay toast = Some (Num 5000))
         [(success, ToastType.success); (error, ToastType.error);
          (warning, ToastType.warning); (info, ToastType.info)].
Proof.
  repeat constructor;
    (eexists; split; [reflexivity|]; repeat split; destruct title; reflexivity).
Qed.

(** ** Further properties of the expiry effect *)

(** X6.  The expiry timer stays unarmed exactly for a persistent entry
    and for an entry whose duration is the number 0.  When it is armed,
    the delay is never 0 and never NaN: it is the stored duration, or
    5000 in its place. *)
Theorem expiry_armed_exactly (toast : Toast.t) :
  (expiryDelay toast = None
   ↔ read (Toast.persistent toast) = Some true
     ∨ read (Toast.duration toast) = Some (Num 0))
  ∧ match expiryDelay toast with
    | Some d =>
        truthy_number (Some d) = true
        ∧ (read (Toast.duration toast) = Some d
           ∨ (d = Num 5000 ∧ truthy_number (read (Toast.duration toast)) = false))
    | None => True
    end.
Proof.
  unfold expiryDelay.
  destruct (read (Toast.persistent toast)) as [[|]|];
    destruct (read (Toast.duration toast)) as [[z| |neg]|]; simpl;
    try destruct (Z.eqb_spec z 0) as [->|Hz]; simpl;
    (split; [split; [intros H; try discriminate; auto
                    |intros [H|H]; try discriminate; try reflexivity;
                     try (injection H as ->; contradiction)]
            |try exact I; try (split; [reflexivity|auto])]).
  all: try (split; [|left; reflexivity]).
  all: try (destruct (Z.eqb_spec z 0); [contradiction|reflexivity]).
Qed.

(** ** Properties of the rendering *)

Section Rendering.
Implicit Types (toasts : list Toast.t).

Lemma ToastContainer_cons (t : Toast.t) toasts :
  ToastContainer (t :: toasts)
  = Some (mkSlot (Toast.id t) t :: ((λ toast, mkSlot (Toast.id toast) toast) <$> toasts)).
Proof. reflexivity. Qed.

Lemma slotKey_fmap toasts :
  slotKey <$> ((λ toast, mkSlot (Toast.id toast) toast) <$> toasts) = ids toasts.
Proof.
  unfold ids. induction toasts as [|t toasts IH]; [reflexivity|].
  simpl. f_equal. exact IH.
Qed.

Lemma slotToast_fmap toasts :
  slotToast <$> ((λ toast, mkSlot (Toast.id toast) toast) <$> toasts) = toasts.
Proof.
  induction toasts as [|t toasts IH]; [reflexivity|].
  simpl. f_equal. exact IH.
Qed.

Lemma removeToast_nil id toasts :
  removeToast id toasts = [] ↔ ∀ t : Toast.t, t ∈ toasts → Toast.id t = id.
Proof.
  induction toasts as [|t toasts IH].
  - split; [intros _ t H; inversion H|reflexivity].
  - rewrite removeToast_cons. destruct (decide (Toast.id t ≠ id)) as [Hne|Heq].
    + split; [discriminate|]. intros H. exfalso. apply Hne, H. left.
    + assert (Toast.id t = id) by (destruct (decide (Toast.id t = id)); tauto).
      rewrite IH. split.
      * intros H' t' Hin. apply elem_of_cons in Hin as [->|Hin]; auto.
      * intros H' t' Hin. apply H'. right. exact Hin.
Qed.
End Rendering.

(** X7.  [ToastContainer] renders nothing exactly for the empty
    collection; otherwise it renders one slot per entry, in the order of
    the collection, each keyed by the id of its entry. *)
Theorem container_renders_the_collection (toasts : list Toast.t) :
  (ToastContainer toasts = None ↔ toasts = [])
  ∧ match ToastContainer toasts with
    | Some slots =>
        slotToast <$> slots = toasts ∧ slotKey <$> slots = ids toasts
        ∧ length slots = length toasts
    | None => True
    end.
Proof.
  destruct toasts as [|t toasts].
  - split; [split; reflexivity|exact I].
  - rewrite ToastContainer_cons. split; [split; discriminate|].
    cbn [fmap list_fmap slotToast slotKey length].
    change (list_fmap ?A ?B ?f ?l) with (f <$> l).
    rewrite slotToast_fmap, slotKey_fmap, !length_fmap. repeat split.
Qed.

(** X8.  After an add the container is on screen with the new entry in
    its first slot, keyed by the id the entry carries; after a removal
    it is gone exactly when every entry carried the removed id. *)
Theorem container_after_add_and_remove (id : string) (toastData : ToastData.t)
    (toasts : list Toast.t) :
  (∃ slots, ToastContainer (addToast id toastData toasts)
            = Some (mkSlot (Toast.id (newToast id toastData))
                      (newToast id toastData) :: slots))
  ∧ (ToastContainer (removeToast id toasts) = None
     ↔ ∀ t : Toast.t, t ∈ toasts → Toast.id t = id).
Proof.
  split.
  - unfold addToast. rewrite ToastContainer_cons. eauto.
  - rewrite <- removeToast_nil.
    destruct (removeToast id toasts) as [|t rest].
    + split; reflexivity.
    + rewrite ToastContainer_cons. split; discriminate.
Qed.

(** X9.  When the id of every new entry differs from the ids active at
    its add, the keys of the slots the container renders are pairwise
    distinct. *)
Theorem container_keys_distinct (calls : list Call) (slots : list Slot) :
  freshIds calls [] = true →
  ToastContainer (runCalls calls []) = Some slots →
  NoDup (slotKey <$> slots).
Proof.
  intros Hfresh Hrender.
  pose proof (runCalls_NoDup calls [] (NoDup_nil_2 : NoDup (ids [])) Hfresh) as Hnd.
  destruct (runCalls calls []) as [|t toasts]; [discriminate|].
  rewrite ToastContainer_cons in Hrender. injection Hrender as <-.
  cbn [fmap list_fmap slotKey]. change (list_fmap ?A ?B ?f ?l) with (f <$> l).
  rewrite slotKey_fmap. exact Hnd.
Qed.

Lemma container_keys_distinct_witness :
  ∃ slots, ToastContainer (runCalls distinctCalls []) = Some slots
           ∧ NoDup (slotKey <$> slots).
Proof.
  eexists. split; [reflexivity|].
  apply (container_keys_distinct distinctCalls); reflexivity.
Defined.

(** X10.  Each of the four types gets an icon element of its own, and
    none of them gets the gray fallback of the [default] branch. *)
Theorem ToastIcon_by_type (type type' : ToastType.t) :
  (ToastIcon (typeName type) = ToastIcon (typeName type') ↔ type = type')
  ∧ className (ToastIcon (typeName type)) ≠ "h-5 w-5 flex-shrink-0 text-gray-600".
Proof.
  split.
  - split; [|intros ->; reflexivity].
    destruct type, type'; vm_compute; intros H; try reflexivity; discriminate.
  - destruct type; vm_compute; discriminate.
Qed.

(** X11.  The class string of an item depends on the type of its entry
    and on whether the item is visible and not leaving, and on nothing
    else: a leaving item is styled like one that has not entered. *)
Theorem getToastStyles_by_type_and_shown (it it' : ToastItem.t) :
  getToastStyles it = getToastStyles it'
  ↔ Toast.type (ToastItem.toast it) = Toast.type (ToastItem.toast it')
    ∧ shown it = shown it'.
Proof.
  unfold getToastStyles, shown.
  destruct (Toast.type (ToastItem.toast it)), (Toast.type (ToastItem.toast it')),
    (ToastItem.isVisible it), (ToastItem.isLeaving it),
    (ToastItem.isVisible it'), (ToastItem.isLeaving it');
    (split; [intros H; apply String.eqb_eq in H; vm_compute in H;
             first [discriminate|split; reflexivity]
            |intros [H1 H2]; first [discriminate|reflexivity]]).
Qed.

(** ** The event loop: what every reachable world satisfies *)

Section ListFacts.
Context {A : Type}.
Implicit Types (l : list A).

Lemma filter_all (P : A → Prop) `{∀ x, Decision (P x)} l :
  (∀ x, x ∈ l → P x) → filter P l = l.
Proof.
  induction l as [|x l IH]; intros Hall; [reflexivity|].
  rewrite filter_cons_True by (apply Hall; left).
  f_equal. apply IH. intros y Hy. apply Hall. right. exact Hy.
Qed.

Lemma filter_none_length (P : A → Prop) `{∀ x, Decision (P x)} l :
  (∀ x, x ∈ l → ¬ P x) → length (filter P l) = 0.
Proof.
  induction l as [|x l IH]; intros Hall; [reflexivity|].
  rewrite filter_cons_False by (apply Hall; left).
  apply IH. intros y Hy. apply Hall. right. exact Hy.
Qed.

Lemma filter_length_sublist (P : A → Prop) `{∀ x, Decision (P x)} l l' :
  l `sublist_of` l' → length (filter P l) ≤ length (filter P l').
Proof.
  induction 1 as [|x l1 l2 _ IH|x l1 l2 _ IH]; [reflexivity| |].
  - rewrite !filter_cons. destruct (decide (P x)); simpl; lia.
  - rewrite filter_cons. destruct (decide (P x)); simpl; lia.
Qed.
End ListFacts.

Section ItemFacts.
Implicit Types (it : ToastItem.t) (its : list ToastItem.t).

Lemma keys_fmap (f : ToastItem.t → ToastItem.t) its :
  (∀ it, ToastItem.key (f it) = ToastItem.key it
         ∧ ToastItem.toast (f it) = ToastItem.toast it) →
  keys (f <$> its) = keys its
  ∧ ToastItem.toast <$> (f <$> its) = ToastItem.toast <$> its.
Proof.
  intros Hf. unfold keys. induction its as [|it its [IH1 IH2]]; [split; reflexivity|].
  destruct (Hf it) as [Hk Ht]. simpl. rewrite Hk, Ht. split; f_equal; assumption.
Qed.

Lemma toast_filter id its :
  ToastItem.toast <$> filter (λ it, Toast.id (ToastItem.toast it) ≠ id) its
  = removeToast id (ToastItem.toast <$> its).
Proof.
  induction its as [|it its IH]; [reflexivity|].
  rewrite filter_cons, fmap_cons, removeToast_cons.
  destruct (decide (Toast.id (ToastItem.toast it) ≠ id));
    [rewrite fmap_cons|]; rewrite IH; reflexivity.
Qed.

Lemma keys_filter_sublist (P : ToastItem.t → Prop) `{∀ it, Decision (P it)} its :
  keys (filter P its) `sublist_of` keys its.
Proof. unfold keys. apply fmap_sublist, sublist_filter. Qed.

Lemma elem_of_keys k its :
  k ∈ keys its ↔ ∃ it, it ∈ its ∧ ToastItem.key it = k.
Proof.
  unfold keys. rewrite list_elem_of_fmap. split.
  - intros (it & -> & Hin). eauto.
  - intros (it & Hin & <-). eauto.
Qed.

Lemma key_inj its it it' :
  NoDup (keys its) → it ∈ its → it' ∈ its →
  ToastItem.key it = ToastItem.key it' → it = it'.
Proof.
  unfold keys. induction its as [|x its IH]; intros Hnd Hin Hin' Hk.
  - inversion Hin.
  - simpl in Hnd. apply NoDup_cons in Hnd as [Hx Hnd].
    apply elem_of_cons in Hin as [->|Hin]; apply elem_of_cons in Hin' as [->|Hin'].
    + reflexivity.
    + exfalso. apply Hx. rewrite Hk. apply list_elem_of_fmap_2. exact Hin'.
    + exfalso. apply Hx. rewrite <- Hk. apply list_elem_of_fmap_2. exact Hin.
    + auto.
Qed.

Lemma mountTimers_owner t k toast tm :
  tm ∈ mountTimers t k toast →
  (callback tm = SetVisible k ∧ due tm = (t + 10)%Z)
  ∨ callback tm = HandleRemove k (Toast.id toast).
Proof.
  unfold mountTimers. intros Hin.
  apply elem_of_cons in Hin as [->|Hin]; [left; split; reflexivity|].
  destruct (expiryDelay toast); [|inversion Hin].
  apply list_elem_of_singleton in Hin as ->. right. reflexivity.
Qed.

Lemma mountTimers_expiry_count t k k' toast :
  length (filter (λ tm, isExpiryOf k' tm = true) (mountTimers t k toast)) ≤ 1.
Proof.
  unfold mountTimers. rewrite filter_cons_False by (simpl; discriminate).
  destruct (expiryDelay toast); [|simpl; lia].
  rewrite filter_cons. destruct (decide _); simpl; lia.
Qed.
End ItemFacts.

Section Consistency.
Implicit Types (w : World) (it : ToastItem.t).

Lemma isExpiryOf_true k tm :
  isExpiryOf k tm = true ↔ ∃ id, callback tm = HandleRemove k id.
Proof.
  unfold isExpiryOf. destruct (callback tm) as [k'|k' id|k' id].
  - split; [discriminate|intros [? ?]; discriminate].
  - rewrite bool_decide_eq_true. split.
    + intros ->. eauto.
    + intros [id' H]. congruence.
  - split; [discriminate|intros [? ?]; discriminate].
Qed.

Lemma setLeaving_leaving k it :
  (ToastItem.isLeaving it = true → ToastItem.isLeaving (setLeaving k it) = true)
  ∧ (ToastItem.key it = k → ToastItem.isLeaving (setLeaving k it) = true)
  ∧ ToastItem.isVisible (setLeaving k it) = ToastItem.isVisible it.
Proof.
  unfold setLeaving. case_bool_decide; simpl; repeat split; auto; contradiction.
Qed.

Lemma setVisible_leaving k it :
  ToastItem.isLeaving (setVisible k it) = ToastItem.isLeaving it.
Proof. unfold setVisible. case_bool_decide; reflexivity. Qed.

Lemma consistent_initial : consistent initial.
Proof.
  unfold consistent, initial, keys. simpl.
  split; [reflexivity|]. split; [constructor|].
  repeat split; try lia; intros; match goal with H : _ ∈ [] |- _ => inversion H end.
Qed.

Lemma consistent_doAdd id toastData w :
  consistent w → consistent (doAdd id toastData w).
Proof.
  intros (Hmir & Hnd & Hlt & Hown & Hcap & Hone & Hexit).
  unfold consistent. cbn [doAdd items toasts timers mounted].
  assert (Hkeys : keys (ToastItem.mk (mounted w) (newToast id toastData) false false
                        :: items w) = mounted w :: keys (items w)) by reflexivity.
  rewrite Hkeys.
  assert (Hfresh : mounted w ∉ keys (items w)).
  { intros Hin. apply Hlt in Hin. lia. }
  split; [rewrite fmap_cons; unfold addToast; f_equal; exact Hmir|].
  split; [apply NoDup_cons; split; assumption|].
  split; [intros k Hin; apply elem_of_cons in Hin as [->|Hin];
          [lia|apply Hlt in Hin; lia]|].
  split; [|split; [|split]].
  - intros tm k Hin Hk. apply elem_of_app in Hin as [Hin|Hin].
    + right. eauto.
    + apply elem_of_cons. left. unfold timerOwner in Hk.
      destruct (mountTimers_owner _ _ _ _ Hin) as [[Hcb _]|Hcb];
        rewrite Hcb in Hk; congruence.
  - intros tm k id' Hin Hcb. apply elem_of_app in Hin as [Hin|Hin].
    + destruct (Hcap _ _ _ Hin Hcb) as (it & Hit & Hk & Hid).
      exists it. split; [right; exact Hit|]. split; assumption.
    + destruct (mountTimers_owner _ _ _ _ Hin) as [[Hcb' _]|Hcb']; [congruence|].
      rewrite Hcb' in Hcb. injection Hcb as <- <-.
      eexists. split; [left|]. split; reflexivity.
  - intros k. rewrite filter_app, length_app.
    destruct (decide (k = mounted w)) as [->|Hne].
    + rewrite (filter_none_length _ (timers w)).
      * pose proof (mountTimers_expiry_count (now w) (mounted w) (mounted w)
                      (newToast id toastData)). lia.
      * intros tm Hin Hexp. apply isExpiryOf_true in Hexp as [id' Hcb].
        apply Hfresh. apply (Hown tm); [exact Hin|].
        unfold timerOwner. rewrite Hcb. reflexivity.
    + rewrite (filter_none_length _ (mountTimers _ _ _)).
      * specialize (Hone k). lia.
      * intros tm Hin Hexp. apply isExpiryOf_true in Hexp as [id' Hcb].
        destruct (mountTimers_owner _ _ _ _ Hin) as [[Hcb' _]|Hcb']; congruence.
  - intros tm k id' Hin Hcb. apply elem_of_app in Hin as [Hin|Hin].
    + destruct (Hexit _ _ _ Hin Hcb) as [Hk Hleave]. split; [lia|].
      intros it Hit Hkey. apply elem_of_cons in Hit as [->|Hit]; [simpl in Hkey; lia|].
      auto.
    + destruct (mountTimers_owner _ _ _ _ Hin) as [[Hcb' _]|Hcb']; congruence.
Qed.

Lemma consistent_doRemove id w : consistent w → consistent (doRemove id w).
Proof.
  intros (Hmir & Hnd & Hlt & Hown & Hcap & Hone & Hexit).
  unfold consistent. cbn [doRemove items toasts timers mounted].
  set (items' := filter (λ it, Toast.id (ToastItem.toast it) ≠ id) (items w)).
  assert (Hsub : ∀ k, k ∈ keys items' → k ∈ keys (items w)).
  { intros k Hin. apply elem_of_keys in Hin as (it & Hit & Hk).
    apply list_elem_of_filter in Hit as [_ Hit]. apply elem_of_keys. eauto. }
  split; [unfold items'; rewrite toast_filter, Hmir; reflexivity|].
  split; [exact (sublist_NoDup _ _ Hnd (keys_filter_sublist _ (items w)))|].
  split; [auto|].
  split; [|split; [|split]].
  - intros tm k Hin Hk. apply list_elem_of_filter in Hin as [Hsurv _].
    unfold survives in Hsurv. unfold timerOwner in Hk.
    destruct (callback tm); try discriminate; injection Hk as <-;
      apply bool_decide_eq_true in Hsurv; exact Hsurv.
  - intros tm k id' Hin Hcb. apply list_elem_of_filter in Hin as [Hsurv Hin].
    unfold survives in Hsurv. rewrite Hcb in Hsurv.
    apply bool_decide_eq_true in Hsurv.
    apply elem_of_keys in Hsurv as (it' & Hit' & Hk').
    destruct (Hcap _ _ _ Hin Hcb) as (it & Hit & Hk & Hid).
    assert (it' = it) as ->.
    { apply (key_inj (items w)); [exact Hnd| |exact Hit|congruence].
      apply list_elem_of_filter in Hit'. tauto. }
    eauto.
  - intros k. etrans; [|apply (Hone k)].
    apply filter_length_sublist, sublist_filter.
  - intros tm k id' Hin Hcb. apply list_elem_of_filter in Hin as [_ Hin].
    destruct (Hexit _ _ _ Hin Hcb) as [Hk Hleave]. split; [exact Hk|].
    intros it Hit. apply list_elem_of_filter in Hit as [_ Hit]. auto.
Qed.

Lemma consistent_handleRemove k id w :
  k < mounted w → consistent w → consistent (handleRemove k id w).
Proof.
  intros Hk (Hmir & Hnd & Hlt & Hown & Hcap & Hone & Hexit).
  unfold consistent. cbn [handleRemove items toasts timers mounted].
  destruct (keys_fmap (setLeaving k) (items w) (setLeaving_same k)) as [Hkeys Htoasts].
  rewrite Hkeys, Htoasts.
  split; [exact Hmir|]. split; [exact Hnd|]. split; [exact Hlt|].
  split; [|split; [|split]].
  - intros tm k' Hin Hk'. apply elem_of_app in Hin as [Hin|Hin]; [eauto|].
    apply list_elem_of_singleton in Hin as ->. discriminate.
  - intros tm k' id' Hin Hcb. apply elem_of_app in Hin as [Hin|Hin].
    + destruct (Hcap _ _ _ Hin Hcb) as (it & Hit & Hkey & Hid).
      exists (setLeaving k it). destruct (setLeaving_same k it) as [-> ->].
      split; [apply list_elem_of_fmap_2; exact Hit|]. split; assumption.
    + apply list_elem_of_singleton in Hin as ->. discriminate.
  - intros k'. rewrite filter_app, length_app.
    rewrite (filter_none_length _ [_]); [specialize (Hone k'); lia|].
    intros tm Hin. apply list_elem_of_singleton in Hin as ->. simpl. discriminate.
  - intros tm k' id' Hin Hcb.
    assert (Hcase : (k' < mounted w
                     ∧ ∀ it, it ∈ items w → ToastItem.key it = k'
                             → ToastItem.isLeaving it = true)
                    ∨ k' = k).
    { apply elem_of_app in Hin as [Hin|Hin]; [left; eauto|].
      apply list_elem_of_singleton in Hin as ->. right. simpl in Hcb. congruence. }
    split; [destruct Hcase as [[? _]| ->]; assumption|].
    intros it' Hit' Hkey. apply list_elem_of_fmap in Hit' as (it & -> & Hit).
    destruct (setLeaving_same k it) as [Hsame _]. rewrite Hsame in Hkey.
    destruct (setLeaving_leaving k it) as (Hkeep & Hset & _).
    destruct Hcase as [[_ Hleave]| ->]; auto.
Qed.

Lemma consistent_dequeue n w : consistent w → consistent (dequeue n w).
Proof.
  intros (Hmir & Hnd & Hlt & Hown & Hcap & Hone & Hexit).
  unfold consistent. cbn [dequeue items toasts timers mounted].
  assert (Hold : ∀ tm, tm ∈ delete n (timers w) → tm ∈ timers w)
    by (intros tm; apply list_elem_of_delete_inv).
  repeat split; eauto.
  - intros k. etrans; [|apply (Hone k)].
    apply filter_length_sublist, sublist_delete.
  - destruct (Hexit tm k id) as [? _]; auto.
  - destruct (Hexit tm k id) as [_ ?]; auto.
Qed.

Lemma consistent_setVisible k w :
  consistent w →
  consistent {| now := now w; toasts := toasts w; items := setVisible k <$> items w;
                timers := timers w; mounted := mounted w |}.
Proof.
  intros (Hmir & Hnd & Hlt & Hown & Hcap & Hone & Hexit).
  unfold consistent. cbn [items toasts timers mounted].
  destruct (keys_fmap (setVisible k) (items w) (setVisible_same k)) as [Hkeys Htoasts].
  rewrite Hkeys, Htoasts.
  split; [exact Hmir|]. split; [exact Hnd|]. split; [exact Hlt|].
  split; [exact Hown|]. split; [|split; [exact Hone|]].
  - intros tm k' id Hin Hcb.
    destruct (Hcap _ _ _ Hin Hcb) as (it & Hit & Hkey & Hid).
    exists (setVisible k it). destruct (setVisible_same k it) as [-> ->].
    split; [apply list_elem_of_fmap_2; exact Hit|]. split; assumption.
  - intros tm k' id Hin Hcb. destruct (Hexit _ _ _ Hin Hcb) as [Hk Hleave].
    split; [exact Hk|]. intros it' Hit' Hkey.
    apply list_elem_of_fmap in Hit' as (it & -> & Hit).
    destruct (setVisible_same k it) as [Hsame _]. rewrite Hsame in Hkey.
    rewrite setVisible_leaving. auto.
Qed.

Lemma consistent_step w e w' : consistent w → step w e = Some w' → consistent w'.
Proof.
  intros Hw Hstep. apply step_inv in Hstep.
  destruct e as [id toastData|id|k|n|dt].
  - subst. apply consistent_doAdd, Hw.
  - subst. apply consistent_doRemove, Hw.
  - destruct Hstep as (it & Hit & Hkey & ->).
    apply consistent_handleRemove; [|exact Hw].
    destruct Hw as (_ & _ & Hlt & _). apply Hlt, elem_of_keys. eauto.
  - destruct Hstep as (tm & Hn & _ & ->).
    pose proof (consistent_dequeue n w Hw) as Hdq.
    destruct (callback tm) as [k|k id|k id] eqn:Hcb; cbn [runCallback].
    + apply (consistent_setVisible k (dequeue n w)), Hdq.
    + apply consistent_handleRemove; [|exact Hdq].
      destruct Hw as (_ & _ & Hlt & Hown & _). cbn [dequeue mounted].
      apply Hlt, (Hown tm); [eapply list_elem_of_lookup_2; exact Hn|].
      unfold timerOwner. rewrite Hcb. reflexivity.
    + apply consistent_doRemove, Hdq.
  - destruct Hstep as [_ ->]. exact Hw.
Qed.

Lemma consistent_run evs : ∀ w w',
  consistent w → run w evs = Some w' → consistent w'.
Proof.
  intros w w' Hw Hrun.
  apply (run_invariant consistent (λ _, True)) with (evs := evs) (w := w);
    try assumption.
  - intros w1 e w2 H1 _ Hs. exact (consistent_step _ _ _ H1 Hs).
  - apply Forall_forall. intros; exact I.
Qed.
End Consistency.

Section Flags.
Implicit Types (w : World) (it : ToastItem.t).

Lemma now_step w e w' : step w e = Some w' → (now w ≤ now w')%Z.
Proof.
  intros Hstep. apply step_inv in Hstep.
  destruct e as [id toastData|id|k|n|dt].
  - subst. reflexivity.
  - subst. reflexivity.
  - destruct Hstep as (it & _ & _ & ->). reflexivity.
  - destruct Hstep as (tm & _ & _ & ->). destruct (callback tm); reflexivity.
  - destruct Hstep as [Hdt ->]. simpl. lia.
Qed.

(** Where a mounted item of the next world comes from, and what
    happened to its two flags. *)
Lemma items_step_flags w e w' it' :
  step w e = Some w' → it' ∈ items w' →
  (∃ it, it ∈ items w ∧ ToastItem.key it' = ToastItem.key it
         ∧ (ToastItem.isLeaving it = true → ToastItem.isLeaving it' = true)
         ∧ (ToastItem.isVisible it' = true →
            ToastItem.isVisible it = true
            ∨ ∃ n tm, e = Fire n ∧ timers w !! n = Some tm
                      ∧ callback tm = SetVisible (ToastItem.key it)
                      ∧ (due tm ≤ now w)%Z))
  ∨ (ToastItem.key it' = mounted w ∧ ToastItem.isVisible it' = false
     ∧ ToastItem.isLeaving it' = false).
Proof.
  intros Hstep Hin. apply step_inv in Hstep.
  assert (Hleave : ∀ k, it' ∈ setLeaving k <$> items w →
            ∃ it, it ∈ items w ∧ ToastItem.key it' = ToastItem.key it
                  ∧ (ToastItem.isLeaving it = true → ToastItem.isLeaving it' = true)
                  ∧ (ToastItem.isVisible it' = true →
                     ToastItem.isVisible it = true
                     ∨ ∃ n tm, e = Fire n ∧ timers w !! n = Some tm
                               ∧ callback tm = SetVisible (ToastItem.key it)
                               ∧ (due tm ≤ now w)%Z)).
  { intros k H. apply list_elem_of_fmap in H as (it & -> & H). exists it.
    destruct (setLeaving_same k it) as [Hk _].
    destruct (setLeaving_leaving k it) as (Hkeep & _ & Hvis).
    split; [exact H|]. split; [exact Hk|]. split; [exact Hkeep|].
    rewrite Hvis. auto. }
  destruct e as [id toastData|id|k|n|dt].
  - subst w'. cbn [doAdd items] in Hin.
    apply elem_of_cons in Hin as [->|Hin]; [right; repeat split|left].
    exists it'. repeat split; auto.
  - subst w'. cbn [doRemove items] in Hin.
    apply list_elem_of_filter in Hin as [_ Hin]. left.
    exists it'. repeat split; auto.
  - destruct Hstep as (it & _ & _ & ->). cbn [handleRemove items] in Hin.
    left. eapply Hleave, Hin.
  - destruct Hstep as (tm & Hn & Hdue & ->).
    destruct (callback tm) as [k|k id|k id] eqn:Hcb; cbn [runCallback] in Hin.
    + cbn [items dequeue] in Hin.
      apply list_elem_of_fmap in Hin as (it & -> & Hin). left. exists it.
      destruct (setVisible_same k it) as [Hk _].
      split; [exact Hin|]. split; [exact Hk|].
      split; [rewrite setVisible_leaving; auto|].
      intros Hvis. unfold setVisible in Hvis.
      case_bool_decide as Hkey; [|left; exact Hvis].
      right. exists n, tm. rewrite Hkey. repeat split; assumption.
    + cbn [handleRemove items dequeue] in Hin. left. eapply Hleave, Hin.
    + cbn [doRemove items dequeue] in Hin.
      apply list_elem_of_filter in Hin as [_ Hin]. left.
      exists it'. repeat split; auto.
  - destruct Hstep as [_ ->]. left. exists it'. repeat split; auto.
Qed.

Lemma shown_leaving it : ToastItem.isLeaving it = true → shown it = false.
Proof. unfold shown. intros ->. apply andb_false_r. Qed.
End Flags.

(** ** Properties of the worlds of a run *)

Lemma waitingRun_distinct : NoDup ["j"; "i"].
Proof.
  apply NoDup_cons. split; [|apply NoDup_singleton].
  rewrite list_elem_of_singleton. discriminate.
Qed.



(** X13.  In a run in which the ids of the added entries are pairwise
    distinct, a pending entrance or expiry timer always belongs to a
    mounted item, and the id an expiry timer captured is the id of that
    item's entry, which is active: the timers of a removed entry's item
    are gone with it. *)
Theorem timers_belong_to_active_entries (evs : list Event) (w : World) (tm : Timer) :
  run initial evs = Some w → NoDup (entryIds evs) → tm ∈ timers w →
  match callback tm with
  | SetVisible k => k ∈ keys (items w)
  | HandleRemove k id =>
      id ∈ ids (toasts w)
      ∧ ∃ it, it ∈ items w ∧ ToastItem.key it = k
              ∧ Toast.id (ToastItem.toast it) = id
  | OnRemove _ _ => True
  end.
Proof.
  intros Hrun _ Hin.
  destruct (consistent_run evs initial w consistent_initial Hrun)
    as (Hmir & _ & _ & Hown & Hcap & _).
  destruct (callback tm) as [k|k id|k id] eqn:Hcb; [| |exact I].
  - apply (Hown tm); [exact Hin|]. unfold timerOwner. rewrite Hcb. reflexivity.
  - destruct (Hcap _ _ _ Hin Hcb) as (it & Hit & Hk & Hid).
    split; [|eauto]. rewrite <- Hmir. unfold ids. rewrite <- Hid.
    apply list_elem_of_fmap_2, list_elem_of_fmap_2, Hit.
Qed.

Lemma timers_belong_to_active_entries_witness :
  ∃ w, run initial waitingRun = Some w
       ∧ mkTimer 5000 (HandleRemove 0 "j") ∈ timers w
       ∧ "j" ∈ ids (toasts w).
Proof.
  eexists. split; [reflexivity|].
  assert (Hin : mkTimer 5000 (HandleRemove 0 "j")
                ∈ [mkTimer 10 (SetVisible 0); mkTimer 5000 (HandleRemove 0 "j");
                   mkTimer 10 (SetVisible 1); mkTimer 5300 (OnRemove 1 "i")])
    by (right; left).
  split; [exact Hin|].
  exact (proj1 (timers_belong_to_active_entries waitingRun _ _ eq_refl
                  waitingRun_distinct Hin)).
Defined.

(** X14.  In a run in which the ids of the added entries are pairwise
    distinct, an item never has more than one expiry timer pending. *)
Theorem one_expiry_timer_per_item (evs : list Event) (w : World) (k : nat) :
  run initial evs = Some w → NoDup (entryIds evs) →
  length (filter (λ tm, isExpiryOf k tm = true) (timers w)) ≤ 1.
Proof.
  intros Hrun _.
  destruct (consistent_run evs initial w consistent_initial Hrun)
    as (_ & _ & _ & _ & _ & Hone & _).
  apply Hone.
Qed.

Lemma one_expiry_timer_per_item_witness :
  ∃ w, run initial waitingRun = Some w
       ∧ filter (λ tm, isExpiryOf 0 tm = true) (timers w)
         = [mkTimer 5000 (HandleRemove 0 "j")]
       ∧ length (filter (λ tm, isExpiryOf 0 tm = true) (timers w)) ≤ 1.
Proof.
  eexists. split; [reflexivity|]. split; [reflexivity|].
  apply (one_expiry_timer_per_item waitingRun _ 0 eq_refl waitingRun_distinct).
Defined.

(** X15.  A removal request that comes when no active entry carries its
    id any more, as after a second click on the close button, changes
    nothing: the store, the mounted items and the other pending timers
    stay as they are. *)
Theorem late_removal_request_is_noop (evs : list Event) (w w' : World) (n : nat)
    (tm : Timer) (k : nat) (id : string) :
  run initial evs = Some w →
  timers w !! n = Some tm → callback tm = OnRemove k id →
  id ∉ ids (toasts w) →
  step w (Fire n) = Some w' →
  w' = dequeue n w.
Proof.
  intros Hrun Hn Hcb Habsent Hfire.
  destruct (consistent_run evs initial w consistent_initial Hrun)
    as (Hmir & _ & _ & Hown & _).
  apply step_inv in Hfire as (tm0 & Hn0 & _ & ->).
  assert (tm0 = tm) as -> by congruence. rewrite Hcb. cbn [runCallback].
  assert (Hitems : filter (λ it, Toast.id (ToastItem.toast it) ≠ id) (items w)
                   = items w).
  { apply filter_all. intros it Hit Hid. apply Habsent.
    rewrite <- Hmir. unfold ids. rewrite <- Hid.
    apply list_elem_of_fmap_2, list_elem_of_fmap_2, Hit. }
  unfold doRemove, dequeue. cbn [now toasts items timers mounted].
  rewrite Hitems, (removeToast_absent id (toasts w) Habsent). f_equal.
  apply filter_all. intros tm' Hin. apply list_elem_of_delete_inv in Hin.
  unfold survives. pose proof (Hown tm') as Hown'. unfold timerOwner in Hown'.
  destruct (callback tm'); [| |reflexivity];
    apply bool_decide_eq_true; apply Hown'; auto.
Qed.

Lemma late_removal_request_is_noop_witness :
  ∃ w w', run initial doubleClick = Some w
          ∧ step w (Fire 0) = Some w'
          ∧ w' = dequeue 0 w.
Proof.
  eexists _, _. split; [reflexivity|]. split; [reflexivity|].
  eapply (late_removal_request_is_noop doubleClick _ _ 0
            (mkTimer 300 (OnRemove 0 "i"))); try reflexivity.
  simpl. intros H. inversion H.
Defined.

(** X16.  In a run in which the ids of the added entries are pairwise
    distinct, a pending removal request belongs to an item that is
    leaving: an item still on screen with a request pending is drawn in
    its hidden style. *)
Theorem removal_request_means_leaving (evs : list Event) (w : World) (tm : Timer)
    (k : nat) (id : string) (it : ToastItem.t) :
  run initial evs = Some w → NoDup (entryIds evs) →
  tm ∈ timers w → callback tm = OnRemove k id →
  it ∈ items w → ToastItem.key it = k →
  ToastItem.isLeaving it = true ∧ shown it = false.
Proof.
  intros Hrun _ Hin Hcb Hit Hkey.
  destruct (consistent_run evs initial w consistent_initial Hrun)
    as (_ & _ & _ & _ & _ & _ & Hexit).
  destruct (Hexit _ _ _ Hin Hcb) as [_ Hleave].
  pose proof (Hleave it Hit Hkey) as H. split; [exact H|apply shown_leaving, H].
Qed.

Lemma removal_request_means_leaving_witness :
  ∃ w, run initial waitingRun = Some w
       ∧ ToastItem.mk 1 (newToast "i" (plain "first")) false true ∈ items w
       ∧ shown (ToastItem.mk 1 (newToast "i" (plain "first")) false true) = false.
Proof.
  eexists. split; [reflexivity|].
  assert (Hit : ToastItem.mk 1 (newToast "i" (plain "first")) false true
                ∈ [ToastItem.mk 1 (newToast "i" (plain "first")) false true;
                   ToastItem.mk 0 (newToast "j" (plain "other")) false false])
    by left.
  split; [exact Hit|].
  apply (removal_request_means_leaving waitingRun _
           (mkTimer 5300 (OnRemove 1 "i")) 1 "i" _ eq_refl waitingRun_distinct);
    try reflexivity.
  - right. right. right. left.
  - exact Hit.
Defined.

(** X17.  Leaving cannot be undone: once an item of a reachable world is
    leaving, it is leaving, and drawn hidden, in every later world in
    which it is still mounted. *)
Theorem leaving_is_irreversible (pre post : list Event) (w w' : World)
    (it it' : ToastItem.t) :
  run initial pre = Some w →
  it ∈ items w → ToastItem.isLeaving it = true →
  run w post = Some w' →
  it' ∈ items w' → ToastItem.key it' = ToastItem.key it →
  ToastItem.isLeaving it' = true ∧ shown it' = false.
Proof.
  intros Hpre Hit Hleave Hpost Hit' Hkey.
  destruct (consistent_run pre initial w consistent_initial Hpre)
    as (_ & Hnd & Hlt & _).
  cut (ToastItem.isLeaving it' = true);
    [intros H; split; [exact H|apply shown_leaving, H]|].
  cut (ToastItem.key it < mounted w'
       ∧ ∀ x, x ∈ items w' → ToastItem.key x = ToastItem.key it
              → ToastItem.isLeaving x = true); [intros [_ H]; auto|].
  apply (run_invariant
           (λ w, ToastItem.key it < mounted w
                 ∧ ∀ x, x ∈ items w → ToastItem.key x = ToastItem.key it
                        → ToastItem.isLeaving x = true)
           (λ _, True)) with (evs := post) (w := w); try assumption.
  - clear. intros w e w' [Hk Hall] _ Hstep.
    pose proof (mounted_step _ _ _ Hstep) as Hm. split; [lia|].
    intros x' Hx' Hkey'.
    destruct (items_step_flags _ _ _ _ Hstep Hx')
      as [(x & Hx & Hsame & Hkeep & _)|(Hnew & _)]; [|lia].
    apply Hkeep, Hall; [exact Hx|congruence].
  - split; [apply Hlt, elem_of_keys; eauto|].
    intros x Hx Hkx. rewrite (key_inj (items w) x it Hnd Hx Hit Hkx). exact Hleave.
  - apply Forall_forall. intros; exact I.
Qed.

Lemma leaving_is_irreversible_witness :
  ∃ w w', run initial clickedRun = Some w ∧ run w tickFirst = Some w'
          ∧ ToastItem.mk 0 (newToast "i" (plain "first")) true true ∈ items w'
          ∧ shown (ToastItem.mk 0 (newToast "i" (plain "first")) true true) = false.
Proof.
  eexists _, _. split; [reflexivity|]. split; [reflexivity|].
  assert (Hit' : ToastItem.mk 0 (newToast "i" (plain "first")) true true
                 ∈ [ToastItem.mk 0 (newToast "i" (plain "first")) true true])
    by left.
  split; [exact Hit'|].
  eapply (leaving_is_irreversible clickedRun tickFirst _ _
            (ToastItem.mk 0 (newToast "i" (plain "first")) false true));
    try reflexivity.
  - left.
  - exact Hit'.
Defined.

(** X18.  In a run in which the ids of the added entries are pairwise
    distinct, an item is not drawn in its opaque style before the
    entrance tick: when the item of an entry added at time [T] is
    visible and not leaving, the time is [T + 10] or later. *)
Theorem entrance_takes_ten_ms (pre post : list Event) (id : string)
    (toastData : ToastData.t) (w0 w : World) (it : ToastItem.t) :
  run initial pre = Some w0 →
  run initial (pre ++ AddToast id toastData :: post) = Some w →
  NoDup (entryIds (pre ++ AddToast id toastData :: post)) →
  it ∈ items w → ToastItem.key it = countMounts pre →
  shown it = true →
  (now w0 + 10 ≤ now w)%Z.
Proof.
  intros Hpre Hrun _ Hit Hkey Hshown.
  apply run_split in Hrun as (w0' & w1 & Hpre' & Hadd & Hpost).
  assert (w0' = w0) as -> by congruence.
  simpl in Hadd. injection Hadd as <-.
  destruct (consistent_run pre initial w0 consistent_initial Hpre)
    as (_ & _ & Hlt & Hown & _).
  pose proof (mounted_run _ _ _ Hpre) as Hk. simpl in Hk. rewrite <- Hk in Hkey.
  unfold shown in Hshown. apply andb_true_iff in Hshown as [Hvis _].
  cut (mounted w0 < mounted w
       ∧ (∀ tm, tm ∈ timers w → callback tm = SetVisible (mounted w0)
                → (now w0 + 10 ≤ due tm)%Z)
       ∧ (∀ x, x ∈ items w → ToastItem.key x = mounted w0
               → ToastItem.isVisible x = true → (now w0 + 10 ≤ now w)%Z));
    [intros (_ & _ & H); eauto|].
  apply (run_invariant
           (λ w, mounted w0 < mounted w
                 ∧ (∀ tm, tm ∈ timers w → callback tm = SetVisible (mounted w0)
                          → (now w0 + 10 ≤ due tm)%Z)
                 ∧ (∀ x, x ∈ items w → ToastItem.key x = mounted w0
                         → ToastItem.isVisible x = true → (now w0 + 10 ≤ now w)%Z))
           (λ _, True)) with (evs := post) (w := doAdd id toastData w0);
    try assumption.
  - clear. intros w e w' (Hk & Htm & Hvis) _ Hstep.
    pose proof (mounted_step _ _ _ Hstep) as Hm.
    pose proof (now_step _ _ _ Hstep) as Hnow.
    split; [lia|]. split.
    + intros tm' Hin Hcb.
      destruct (timers_step _ _ _ _ Hstep Hin)
        as [Hold|[(k' & id' & Hcb' & _)|(id' & toastData & -> & Hnew)]].
      * auto.
      * congruence.
      * destruct (mountTimers_owner _ _ _ _ Hnew) as [[Hcb' _]|Hcb'];
          rewrite Hcb' in Hcb; [injection Hcb as Heq; lia|discriminate].
    + intros x' Hx' Hkey' Hvis'.
      destruct (items_step_flags _ _ _ _ Hstep Hx')
        as [(x & Hx & Hsame & _ & Hfrom)|(Hnew & _)]; [|lia].
      destruct (Hfrom Hvis') as [Hbefore|(n & tm & _ & Hn & Hcb & Hdue)].
      * assert (now w0 + 10 ≤ now w)%Z; [|lia].
        apply (Hvis x); [exact Hx|congruence|exact Hbefore].
      * assert (now w0 + 10 ≤ due tm)%Z; [|lia].
        apply Htm; [eapply list_elem_of_lookup_2; exact Hn|]. congruence.
  - split; [simpl; lia|]. split.
    + intros tm Hin Hcb. cbn [doAdd timers] in Hin.
      apply elem_of_app in Hin as [Hin|Hin].
      * exfalso. assert (mounted w0 < mounted w0); [|lia].
        apply Hlt, (Hown tm); [exact Hin|]. unfold timerOwner. rewrite Hcb. reflexivity.
      * destruct (mountTimers_owner _ _ _ _ Hin) as [[_ Hdue]|Hcb'];
          [cbn [doAdd now] in *; lia|congruence].
    + intros x Hx Hkx Hvx. cbn [doAdd items] in Hx.
      apply elem_of_cons in Hx as [->|Hx]; [discriminate|].
      exfalso. assert (mounted w0 < mounted w0); [|lia].
      apply Hlt, elem_of_keys. eauto.
  - apply Forall_forall. intros; exact I.
Qed.

Lemma entrance_takes_ten_ms_witness :
  ∃ w0 w, run initial olderFirst = Some w0
          ∧ run initial (olderFirst ++ AddToast "i" (plain "first") :: tickSecond)
            = Some w
          ∧ ToastItem.mk 1 (newToast "i" (plain "first")) true false ∈ items w
          ∧ (now w0 + 10 ≤ now w)%Z.
Proof.
  eexists _, _. split; [reflexivity|]. split; [reflexivity|].
  assert (Hit : ToastItem.mk 1 (newToast "i" (plain "first")) true false
                ∈ [ToastItem.mk 1 (newToast "i" (plain "first")) true false;
                   ToastItem.mk 0 (newToast "j" (plain "other")) false false])
    by left.
  split; [exact Hit|].
  eapply (entrance_takes_ten_ms olderFirst tickSecond "i" (plain "first") _ _
            (ToastItem.mk 1 (newToast "i" (plain "first")) true false));
    try reflexivity.
  - apply waitingRun_distinct.
  - exact Hit.
Defined.

(** ** The ways an entry leaves the store *)

Section Leaving.
Implicit Types (w : World) (e : Event) (t : Toast.t).

(** An exit hold that is pending after a turn was pending before, or
    [handleRemove] of its item started it in this turn, due in 300 ms. *)
Lemma exit_hold_origin w e w' tm' k id :
  step w e = Some w' → tm' ∈ timers w' → callback tm' = OnRemove k id →
  tm' ∈ timers w
  ∨ (due tm' = (now w + 300)%Z
     ∧ ((∃ it, it ∈ items w ∧ ToastItem.key it = k
               ∧ Toast.id (ToastItem.toast it) = id)
        ∨ ∃ tm, tm ∈ timers w ∧ callback tm = HandleRemove k id)).
Proof.
  intros Hstep Hin Hcb. apply step_inv in Hstep.
  destruct e as [id0 toastData|id0|k0|n|dt].
  - subst w'. cbn [doAdd timers] in Hin.
    apply elem_of_app in Hin as [Hin|Hin]; [left; exact Hin|].
    destruct (mountTimers_owner _ _ _ _ Hin) as [[Hcb' _]|Hcb']; congruence.
  - subst w'. cbn [doRemove timers] in Hin.
    apply list_elem_of_filter in Hin. tauto.
  - destruct Hstep as (it & Hit & Hkey & ->). cbn [handleRemove timers] in Hin.
    apply elem_of_app in Hin as [Hin|Hin]; [left; exact Hin|].
    apply list_elem_of_singleton in Hin as ->. simpl in Hcb. injection Hcb as <- <-.
    right. split; [reflexivity|]. left. eauto.
  - destruct Hstep as (tm & Hn & Hdue & ->).
    assert (Htm : tm ∈ timers w) by (eapply list_elem_of_lookup_2; exact Hn).
    destruct (callback tm) as [k1|k1 id1|k1 id1] eqn:Hcb1; cbn [runCallback] in Hin.
    + cbn [timers dequeue] in Hin. left. eapply list_elem_of_delete_inv, Hin.
    + cbn [handleRemove timers dequeue now] in Hin.
      apply elem_of_app in Hin as [Hin|Hin];
        [left; eapply list_elem_of_delete_inv, Hin|].
      apply list_elem_of_singleton in Hin as ->. simpl in Hcb. injection Hcb as <- <-.
      right. split; [reflexivity|]. right. eauto.
    + cbn [doRemove timers dequeue] in Hin.
      apply list_elem_of_filter in Hin as [_ Hin].
      left. eapply list_elem_of_delete_inv, Hin.
  - destruct Hstep as [_ ->]. left. exact Hin.
Qed.

(** An entry of the store is in the store after the turn, unless the turn
    is a [removeToast] with its id or the removal request of an item
    with its id. *)
Lemma toasts_keep w e w' t :
  step w e = Some w' → t ∈ toasts w →
  t ∈ toasts w'
  ∨ e = RemoveToast (Toast.id t)
  ∨ ∃ n tm k, e = Fire n ∧ timers w !! n = Some tm
              ∧ callback tm = OnRemove k (Toast.id t) ∧ (due tm ≤ now w)%Z.
Proof.
  intros Hstep Hin. apply step_inv in Hstep.
  destruct e as [id0 toastData|id0|k0|n|dt].
  - subst w'. left. cbn [doAdd toasts]. right. exact Hin.
  - subst w'. destruct (decide (Toast.id t = id0)) as [<-|Hne]; [right; left; reflexivity|].
    left. cbn [doRemove toasts]. apply elem_of_removeToast. auto.
  - destruct Hstep as (it & _ & _ & ->). left. exact Hin.
  - destruct Hstep as (tm & Hn & Hdue & ->).
    destruct (callback tm) as [k1|k1 id1|k1 id1] eqn:Hcb1; cbn [runCallback].
    + left. exact Hin.
    + left. exact Hin.
    + destruct (decide (Toast.id t = id1)) as [<-|Hne].
      * right. right. exists n, tm, k1. repeat split; assumption.
      * left. cbn [doRemove toasts dequeue]. apply elem_of_removeToast. auto.
  - destruct Hstep as [_ ->]. left. exact Hin.
Qed.

Lemma drawn_step ds w e w' :
  drawn ds w → step w e = Some w' → drawn (ds ++ entryIds [e]) w'.
Proof.
  intros (Hm & Hits & Htms) Hstep.
  pose proof (mounted_step _ _ _ Hstep) as Hm'.
  split; [|split].
  - rewrite length_app, Hm', Hm. destruct e; simpl; lia.
  - intros it' Hin.
    destruct (items_step _ _ _ _ Hstep Hin)
      as [(it & Hit & -> & ->)|(id & toastData & -> & ->)].
    + apply lookup_app_l_Some, Hits, Hit.
    + simpl. rewrite Hm. apply list_lookup_middle. reflexivity.
  - intros tm' k id Hin [Hcb|Hcb].
    + destruct (timers_step _ _ _ _ Hstep Hin)
        as [Hold|[(k' & id' & Hcb' & _)|(id' & toastData & -> & Hnew)]].
      * apply lookup_app_l_Some. eauto.
      * congruence.
      * destruct (mountTimers_owner _ _ _ _ Hnew) as [[Hcb' _]|Hcb']; [congruence|].
        rewrite Hcb' in Hcb. injection Hcb as <- <-.
        simpl. rewrite Hm. apply list_lookup_middle. reflexivity.
    + apply lookup_app_l_Some.
      destruct (exit_hold_origin _ _ _ _ _ _ Hstep Hin Hcb)
        as [Hold|[_ [(it & Hit & <- & <-)|(tm & Htm & Hcbtm)]]]; eauto.
Qed.

Lemma drawn_run evs : ∀ ds w w',
  drawn ds w → run w evs = Some w' → drawn (ds ++ entryIds evs) w'.
Proof.
  induction evs as [|e evs IH]; intros ds w w' Hd Hrun; simpl in Hrun.
  - injection Hrun as <-. simpl. rewrite app_nil_r. exact Hd.
  - destruct (step w e) as [w1|] eqn:E; [|discriminate].
    pose proof (IH _ _ _ (drawn_step _ _ _ _ Hd E) Hrun) as H.
    rewrite <- app_assoc in H. change (e :: evs) with ([e] ++ evs).
    rewrite entryIds_app. exact H.
Qed.

Lemma drawn_initial : drawn [] initial.
Proof.
  split; [reflexivity|].
  split; simpl; intros; match goal with H : _ ∈ [] |- _ => inversion H end.
Qed.
End Leaving.

Lemma forallb_Forall {A} (f : A → bool) (l : list A) :
  forallb f l = true → Forall (λ x, f x = true) l.
Proof.
  induction l as [|x l IH]; intros H; [constructor|].
  simpl in H. apply andb_true_iff in H as [Hx Hl]. constructor; auto.
Qed.

(** X19.  A turn of the loop takes an entry out of the store only when it
    is a call of [removeToast] with the entry's id or the removal
    request, its exit hold over, of an item that captured that id; an
    add, a click, the entrance tick, the expiry timer and the passing of
    time leave every entry in. *)
Theorem entries_leave_by_removal_only (w w' : World) (e : Event) (t : Toast.t) :
  step w e = Some w' → t ∈ toasts w → t ∉ toasts w' →
  e = RemoveToast (Toast.id t)
  ∨ ∃ n tm k, e = Fire n ∧ timers w !! n = Some tm
              ∧ callback tm = OnRemove k (Toast.id t) ∧ (due tm ≤ now w)%Z.
Proof.
  intros Hstep Hin Hout.
  destruct (toasts_keep _ _ _ _ Hstep Hin) as [Hkept|H]; [contradiction|exact H].
Qed.

Lemma entries_leave_by_removal_only_witness :
  ∃ w w', run initial [AddToast "i" (plain "first")] = Some w
          ∧ step w (RemoveToast "i") = Some w'
          ∧ (RemoveToast "i" = RemoveToast (Toast.id (newToast "i" (plain "first")))
             ∨ ∃ n tm k, RemoveToast "i" = Fire n ∧ timers w !! n = Some tm
                         ∧ callback tm
                           = OnRemove k (Toast.id (newToast "i" (plain "first")))
                         ∧ (due tm ≤ now w)%Z).
Proof.
  eexists _, _. split; [reflexivity|]. split; [reflexivity|].
  eapply (entries_leave_by_removal_only _ _ (RemoveToast "i")
            (newToast "i" (plain "first"))); [reflexivity|left|].
  simpl. intros H. inversion H.
Defined.

(** X20.  An entry for whose id no removal request is pending stays in
    the store for the next 300 ms, whatever is clicked, added or fired,
    unless [removeToast] is called with its id: a dismissal always
    leaves the exit animation its 300 ms. *)
Theorem exit_hold_lasts_300_ms (w0 w : World) (post : list Event) (t : Toast.t) :
  t ∈ toasts w0 →
  (∀ tm k, tm ∈ timers w0 → callback tm ≠ OnRemove k (Toast.id t)) →
  forallb (notRemoved (Toast.id t)) post = true →
  run w0 post = Some w →
  (now w < now w0 + 300)%Z →
  t ∈ toasts w.
Proof.
  intros Hin Hnone Hpost Hrun Hnow.
  cut ((∀ tm k, tm ∈ timers w → callback tm = OnRemove k (Toast.id t)
                → (now w0 + 300 ≤ due tm)%Z)
       ∧ (now w0 ≤ now w)%Z
       ∧ (t ∈ toasts w ∨ (now w0 + 300 ≤ now w)%Z));
    [intros (_ & _ & [H|H]); [exact H|lia]|].
  apply (run_invariant
           (λ w, (∀ tm k, tm ∈ timers w → callback tm = OnRemove k (Toast.id t)
                          → (now w0 + 300 ≤ due tm)%Z)
                 ∧ (now w0 ≤ now w)%Z
                 ∧ (t ∈ toasts w ∨ (now w0 + 300 ≤ now w)%Z))
           (λ e, notRemoved (Toast.id t) e = true)) with (evs := post) (w := w0);
    try assumption.
  - clear. intros w e w' (Hdue & Hnow & Hin) He Hstep.
    pose proof (now_step _ _ _ Hstep) as Hmono.
    split; [|split; [lia|]].
    + intros tm' k Htm' Hcb.
      destruct (exit_hold_origin _ _ _ _ _ _ Hstep Htm' Hcb) as [Hold|[Hnew _]];
        [eauto|lia].
    + destruct Hin as [Hin|Hlate]; [|right; lia].
      destruct (toasts_keep _ _ _ _ Hstep Hin)
        as [Hkept|[->|(n & tm & k & -> & Hn & Hcb & Hfired)]].
      * left. exact Hkept.
      * simpl in He. apply bool_decide_eq_true in He. contradiction.
      * right. apply list_elem_of_lookup_2 in Hn.
        specialize (Hdue tm k Hn Hcb). lia.
  - split; [|split; [lia|left; exact Hin]].
    intros tm k Htm Hcb. exfalso. exact (Hnone tm k Htm Hcb).
  - apply forallb_Forall, Hpost.
Qed.

Lemma exit_hold_lasts_300_ms_witness :
  ∃ w0 w, run initial [AddToast "i" (plain "first")] = Some w0
          ∧ run w0 almostGone = Some w
          ∧ now w = 299%Z
          ∧ newToast "i" (plain "first") ∈ toasts w.
Proof.
  eexists _, _. split; [reflexivity|]. split; [reflexivity|]. split; [reflexivity|].
  eapply (exit_hold_lasts_300_ms (doAdd "i" (plain "first") initial) _ almostGone);
    try reflexivity.
  - left.
  - simpl. intros tm k Htm Hcb.
    apply elem_of_cons in Htm as [->|Htm]; [discriminate|].
    apply list_elem_of_singleton in Htm as ->. discriminate.
Defined.

(** X21.  When the ids of the added entries are pairwise distinct, a
    removal request that is pending for the id of a mounted item's entry was
    started by that item, and the item is leaving: an entry whose item
    is not leaving has no removal request pending. *)
Theorem request_for_id_means_leaving (evs : list Event) (w : World) (tm : Timer)
    (k : nat) (id : string) (it : ToastItem.t) :
  run initial evs = Some w → NoDup (entryIds evs) →
  tm ∈ timers w → callback tm = OnRemove k id →
  it ∈ items w → Toast.id (ToastItem.toast it) = id →
  ToastItem.key it = k ∧ ToastItem.isLeaving it = true.
Proof.
  intros Hrun Hnd Htm Hcb Hit Hid.
  destruct (consistent_run evs initial w consistent_initial Hrun)
    as (_ & _ & _ & _ & _ & _ & Hexit).
  destruct (drawn_run evs [] initial w drawn_initial Hrun) as (_ & Hits & Htms).
  simpl in Hits, Htms.
  assert (Hk : ToastItem.key it = k).
  { apply (NoDup_lookup (entryIds evs) _ _ id Hnd).
    - rewrite <- Hid. apply Hits, Hit.
    - eapply Htms; [exact Htm|right; exact Hcb]. }
  split; [exact Hk|]. destruct (Hexit _ _ _ Htm Hcb) as [_ Hleave]. auto.
Qed.

Lemma request_for_id_means_leaving_witness :
  ∃ w, run initial waitingRun = Some w
       ∧ ToastItem.mk 1 (newToast "i" (plain "first")) false true ∈ items w
       ∧ ToastItem.isLeaving (ToastItem.mk 1 (newToast "i" (plain "first")) false true)
         = true.
Proof.
  eexists. split; [reflexivity|].
  assert (Hit : ToastItem.mk 1 (newToast "i" (plain "first")) false true
                ∈ [ToastItem.mk 1 (newToast "i" (plain "first")) false true;
                   ToastItem.mk 0 (newToast "j" (plain "other")) false false])
    by left.
  split; [exact Hit|].
  eapply (request_for_id_means_leaving waitingRun _
            (mkTimer 5300 (OnRemove 1 "i")) 1 "i").
  - reflexivity.
  - simpl. apply NoDup_cons. split; [|apply NoDup_singleton].
    rewrite list_elem_of_singleton. discriminate.
  - right. right. right. left.
  - reflexivity.
  - exact Hit.
  - reflexivity.
Defined.
